(** * Transport-solution: services, itineraries, booking history and forecast

    A shallow embedding of [main.py]: a [Service] owns [Leg]s and [OD]s, an
    [OD] owns its [Passenger] bookings.  Python lists are Rocq lists, the
    two dictionaries of [OD.forecast] are finite maps, integers are [Z].
    Prices and revenues are integers, as in the data set of the program
    (floating-point prices are outside this model).  Stations have no
    [__eq__]: they compare by identity, so the model takes them from a type
    with decidable equality. *)

From stdpp Require Import base gmap list sorting strings.

Local Open Scope Z_scope.

(** ** Outcomes of a Python computation *)

(** The exceptions the interpreter raises in this program. *)
Inductive exn := IndexError | KeyError.

(** A loop of the program that has no bound of its own runs on fuel;
    [OutOfFuel] stands for "still running after that many iterations". *)
Inductive outcome (A : Type) : Type :=
  | Ok (a : A)
  | Raise (e : exn)
  | OutOfFuel.
Arguments Ok {A} a.
Arguments Raise {A} e.
Arguments OutOfFuel {A}.

Global Instance outcome_ret : MRet outcome := fun A a => Ok a.
Global Instance outcome_bind : MBind outcome := fun A B f m =>
  match m with
  | Ok a => f a
  | Raise e => Raise e
  | OutOfFuel => OutOfFuel
  end.

(** [l[-1]]: the last item, [IndexError] on the empty list. *)
Definition last_item {A} (l : list A) : outcome A :=
  match last l with
  | Some x => Ok x
  | None => Raise IndexError
  end.

(** [l[0]]. *)
Definition first_item {A} (l : list A) : outcome A :=
  match l with
  | x :: _ => Ok x
  | [] => Raise IndexError
  end.

(** [for x in l: s = body(s, x)], stopping at the first exception. *)
Fixpoint for_each {A S} (body : S → A → outcome S) (l : list A) (s : S)
  : outcome S :=
  match l with
  | [] => Ok s
  | x :: l' =>
      match body s x with
      | Ok s' => for_each body l' s'
      | Raise e => Raise e
      | OutOfFuel => OutOfFuel
      end
  end.

(** ** Dates *)

(** A [datetime.date], as its proleptic Gregorian ordinal. *)
Record date := mkDate { toordinal : Z }.
(** A [datetime.timedelta] between two dates: a whole number of days. *)
Record timedelta := mkTimedelta { days : Z }.
(** [a - b] on dates. *)
Definition date_sub (a b : date) : timedelta :=
  mkTimedelta (toordinal a - toordinal b).

(** ** Sorting *)

(** [sorted(l, key=key)]: Python's sort is stable, and so is this insertion
    sort (an item goes before the first item whose key is not smaller). *)
Fixpoint insert_by {A} (key : A → Z) (x : A) (l : list A) : list A :=
  match l with
  | [] => [x]
  | y :: l' =>
      if decide (key x ≤ key y) then x :: l else y :: insert_by key x l'
  end.

Definition sorted_by {A} (key : A → Z) (l : list A) : list A :=
  foldr (insert_by key) [] l.

(** [sorted([k for k in d])] for a dictionary with integer keys. *)
Definition sorted_keys {V} (d : gmap Z V) : list Z :=
  sorted_by id (map_to_list d).*1.

(** ** Data points and the two dictionaries of the forecast *)

(** A data point [[day_x, cumulative bookings, cumulative revenue]]. *)
Record point := mkPoint { pt_day : Z; pt_count : Z; pt_revenue : Z }.

Global Instance point_eq_dec : EqDecision point.
Proof. solve_decision. Defined.

(** [pricing] and [demand_matrix] are dictionaries passed by reference and
    updated in place: they are the state of the forecast.  Every day of
    [demand_matrix] has a row of its own. *)
Record Env := mkEnv {
  env_pricing : gmap Z Z;
  env_demand : gmap Z (gmap Z Z)
}.

(** A computation on that state; the state is kept when an exception is
    raised. *)
Definition M (A : Type) : Type := Env → outcome A * Env.

Global Instance M_ret : MRet M := fun A a env => (Ok a, env).
Global Instance M_bind : MBind M := fun A B f m env =>
  match m env with
  | (Ok a, env') => f a env'
  | (Raise e, env') => (Raise e, env')
  | (OutOfFuel, env') => (OutOfFuel, env')
  end.

Definition lift {A} (o : outcome A) : M A := fun env => (o, env).
Definition gets {A} (f : Env → A) : M A := fun env => (Ok (f env), env).

(** [pricing[price]] *)
Definition get_pricing (price : Z) : M Z := fun env =>
  match env_pricing env !! price with
  | Some seats => (Ok seats, env)
  | None => (Raise KeyError, env)
  end.

(** [pricing[price] = seats] *)
Definition set_pricing (price seats : Z) : M unit := fun env =>
  (Ok tt, mkEnv (<[price := seats]> (env_pricing env)) (env_demand env)).

(** [demand_matrix[day][price]] *)
Definition get_demand (day price : Z) : M Z := fun env =>
  match env_demand env !! day with
  | Some row =>
      match row !! price with
      | Some demand => (Ok demand, env)
      | None => (Raise KeyError, env)
      end
  | None => (Raise KeyError, env)
  end.

(** [demand_matrix[day][price] = demand] *)
Definition set_demand (day price demand : Z) : M unit := fun env =>
  match env_demand env !! day with
  | Some row =>
      (Ok tt, mkEnv (env_pricing env)
                    (<[day := <[price := demand]> row]> (env_demand env)))
  | None => (Raise KeyError, env)
  end.

(** [for x in l: s = body(s, x)] on the state. *)
Fixpoint for_in {A S} (body : S → A → M S) (l : list A) (s : S) : M S :=
  match l with
  | [] => mret s
  | x :: l' => s' ← body s x; for_in body l' s'
  end.

(** What [OD.forecast] returns: the error message or the forecast. *)
Inductive forecast_ret :=
  | RetError (msg : string)
  | RetForecast (forecast : list point).

(** *** The loops of [OD.forecast] *)

(** [pricing[price] -= 1] *)
Definition decr_pricing (price : Z) : M unit :=
  seats ← get_pricing price; set_pricing price (seats - 1).

(** [if upper_price >= price and demand_matrix[day][upper_price] > 0:
       demand_matrix[day][upper_price] -= 1] *)
Definition cascade_step (day price : Z) (_ : unit) (upper_price : Z) : M unit :=
  if decide (price ≤ upper_price) then
    demand ← get_demand day upper_price;
    if decide (0 < demand) then
      demand' ← get_demand day upper_price;
      set_demand day upper_price (demand' - 1)
    else mret tt
  else mret tt.

(** "Selling a ticket and updating pricing and demand_matrix" *)
Definition sell_ticket (prices : list Z) (day price : Z) (new_forecast : point)
  : M point :=
  let new_forecast' :=
    mkPoint day (pt_count new_forecast + 1) (pt_revenue new_forecast + price) in
  decr_pricing price;;
  for_in (cascade_step day price) prices tt;;
  mret new_forecast'.

(** [while demand_matrix[day][price] > 0 and pricing[price] > 0: ...] *)
Fixpoint sell_loop (fuel : nat) (prices : list Z) (day : Z)
    (new_forecast : point) (price : Z) : M point :=
  demand ← get_demand day price;
  if decide (0 < demand) then
    seats ← get_pricing price;
    if decide (0 < seats) then
      match fuel with
      | O => lift OutOfFuel
      | S fuel' =>
          new_forecast' ← sell_ticket prices day price new_forecast;
          sell_loop fuel' prices day new_forecast' price
      end
    else mret new_forecast
  else mret new_forecast.

(** Body of [for day in demand_days]. *)
Definition day_step (fuel : nat) (prices : list Z) (forecast : list point)
    (day : Z) : M (list point) :=
  previous ← lift (last_item forecast);
  new_forecast ← for_in (sell_loop fuel prices day) prices
                   (mkPoint day (pt_count previous) (pt_revenue previous));
  mret (forecast ++ [new_forecast]).

(** [del l[0]] *)
Definition del_first {A} (l : list A) : outcome (list A) :=
  match l with
  | [] => Raise IndexError
  | _ :: l' => Ok l'
  end.

(** [OD.forecast], after [history = self.history()]. *)
Definition forecast_from (fuel : nat) (history : list point) : M forecast_ret :=
  demand_days ← gets (λ env, sorted_keys (env_demand env));
  prices ← gets (λ env, sorted_keys (env_pricing env));
  last_data ←
    (if decide (length history = 0%nat)
     then first ← lift (first_item demand_days); mret (mkPoint (first - 1) 0 0)
     else lift (last_item history));
  first ← lift (first_item demand_days);
  if decide (pt_day last_data > first)
  then mret (RetError "Error, the demand_matrix is not up to date")
  else
    forecast ← for_in (day_step fuel prices) demand_days [last_data];
    forecast' ← lift (del_first forecast);
    mret (RetForecast forecast').

(** ** The data model *)

Section Model.
Context {Station : Type} `{EqDecision Station}.

Record Passenger := mkPassenger {
  p_origin : Station;
  p_destination : Station;
  sale_day_x : Z;
  price : Z
}.

(** The back-reference [leg.service] is passed to the methods instead. *)
Record Leg := mkLeg {
  leg_origin : Station;
  leg_destination : Station
}.

Record OD := mkOD {
  od_origin : Station;
  od_destination : Station;
  od_passengers : list Passenger
}.

Record Service := mkService {
  name : string;
  departure_date : date;
  legs : list Leg;
  ods : list OD
}.

Global Instance Leg_eq_dec : EqDecision Leg.
Proof. solve_decision. Defined.

(** *** [Service.day_x]; [today] is [datetime.date.today()] *)
Definition day_x (today : date) (svc : Service) : Z :=
  days (date_sub today (departure_date svc)).

(** *** [Service.itinerary] *)

Definition origins (ls : list Leg) : list Station := leg_origin <$> ls.
Definition destinations (ls : list Leg) : list Station :=
  leg_destination <$> ls.

(** "Determining the origin of the service": every origin that is no
    destination, once per leg that leaves it. *)
Definition service_origins (ls : list Leg) : list Station :=
  filter (λ station, station ∉ destinations ls) (origins ls).

(** Body of [for leg in self.legs] inside the [while]: [itinerary[-1]] is
    read again at every leg. *)
Definition itinerary_step (itinerary : list Station) (leg : Leg)
  : outcome (list Station) :=
  match last itinerary with
  | None => Raise IndexError
  | Some stop =>
      if decide (leg_origin leg = stop)
      then Ok (itinerary ++ [leg_destination leg])
      else Ok itinerary
  end.

(** [while itinerary[-1] in origins: for leg in self.legs: ...] *)
Fixpoint itinerary_loop (fuel : nat) (ls : list Leg)
    (itinerary : list Station) : outcome (list Station) :=
  match last itinerary with
  | None => Raise IndexError
  | Some stop =>
      if decide (stop ∈ origins ls) then
        match fuel with
        | O => OutOfFuel
        | S fuel' =>
            match for_each itinerary_step ls itinerary with
            | Ok itinerary' => itinerary_loop fuel' ls itinerary'
            | Raise e => Raise e
            | OutOfFuel => OutOfFuel
            end
        end
      else Ok itinerary
  end.

Definition itinerary_of_legs (fuel : nat) (ls : list Leg)
  : outcome (list Station) :=
  itinerary_loop fuel ls (service_origins ls).

Definition itinerary (fuel : nat) (svc : Service) : outcome (list Station) :=
  itinerary_of_legs fuel (legs svc).

(** *** [Service.load_itinerary] *)

(** [Leg(self, itinerary[i], itinerary[i+1])]; [i] and [i+1] are in range
    for every [i] of [range(len(itinerary)-1)]. *)
Definition leg_at (stops : list Station) (i : nat) : option Leg :=
  o ← stops !! i; d ← stops !! S i; Some (mkLeg o d).

(** [OD(self, itinerary[i], itinerary[j])], with no passenger yet. *)
Definition od_at (stops : list Station) (i j : nat) : option OD :=
  o ← stops !! i; d ← stops !! j; Some (mkOD o d []).

Definition load_legs (stops : list Station) : list Leg :=
  omap (leg_at stops) (seq 0 (length stops - 1)).

Definition load_ods (stops : list Station) : list OD :=
  i ← seq 0 (length stops - 1);
  omap (od_at stops i) (seq (S i) (length stops - S i)).

Definition load_itinerary (svc : Service) (stops : list Station) : Service :=
  mkService (name svc) (departure_date svc) (load_legs stops) (load_ods stops).

(** *** [Service.load_passenger_manifest] *)

Definition add_passenger (passenger : Passenger) (od : OD) : OD :=
  if decide (p_origin passenger = od_origin od
             ∧ p_destination passenger = od_destination od)
  then mkOD (od_origin od) (od_destination od)
            (od_passengers od ++ [passenger])
  else od.

Definition load_passenger_manifest (svc : Service)
    (passengers : list Passenger) : Service :=
  mkService (name svc) (departure_date svc) (legs svc)
    (foldl (λ os passenger, add_passenger passenger <$> os)
           (ods svc) passengers).

(** *** [OD.legs] *)

(** [for leg in self.service.legs: if station == leg.origin: ...append] *)
Definition legs_from (ls : list Leg) (station : Station) : list Leg :=
  filter (λ leg, station = leg_origin leg) ls.

(** "Find the first leg of the OD". *)
Definition first_legs (ls : list Leg) (origin : Station)
    (itinerary : list Station) : list Leg :=
  foldl (λ acc station,
           if decide (station = origin) then acc ++ legs_from ls station
           else acc)
        [] itinerary.

(** Body of [for station in itinerary] inside the [while]: [legs[-1]] is
    read again at every station. *)
Definition legs_step (ls : list Leg) (acc : list Leg) (station : Station)
  : outcome (list Leg) :=
  match last acc with
  | None => Raise IndexError
  | Some l =>
      if decide (station = leg_destination l)
      then Ok (acc ++ legs_from ls station)
      else Ok acc
  end.

(** [while legs[-1].destination != self.destination: ...] *)
Fixpoint legs_loop (fuel : nat) (ls : list Leg) (itinerary : list Station)
    (destination : Station) (acc : list Leg) : outcome (list Leg) :=
  match last acc with
  | None => Raise IndexError
  | Some l =>
      if decide (leg_destination l ≠ destination) then
        match fuel with
        | O => OutOfFuel
        | S fuel' =>
            match for_each (legs_step ls) itinerary acc with
            | Ok acc' => legs_loop fuel' ls itinerary destination acc'
            | Raise e => Raise e
            | OutOfFuel => OutOfFuel
            end
        end
      else Ok acc
  end.

Definition od_legs (fuel : nat) (svc : Service) (od : OD)
  : outcome (list Leg) :=
  stops ← itinerary fuel svc;
  legs_loop fuel (legs svc) stops (od_destination od)
    (first_legs (legs svc) (od_origin od) stops).

(** *** [Leg.passengers] *)

(** Body of [for leg in od.legs]: the passengers of the OD are added once
    per leg of the OD that is this leg. *)
Definition occupy (self : Leg) (od : OD) (passengers : list Passenger)
    (leg : Leg) : list Passenger :=
  if decide (leg_origin self = leg_origin leg
             ∧ leg_destination self = leg_destination leg)
  then passengers ++ od_passengers od
  else passengers.

(** [self.service] is [svc]; [od.legs] is evaluated once for every OD. *)
Definition leg_passengers (fuel : nat) (svc : Service) (self : Leg)
  : outcome (list Passenger) :=
  for_each (λ passengers od,
              crossed ← od_legs fuel svc od;
              Ok (foldl (occupy self od) passengers crossed))
           (ods svc) [].

(** *** [OD.history] *)

(** The auxiliary [update_history]; [history[-1] = x] overwrites the last
    item. *)
Definition update_history (history : list point) (passenger : Passenger)
  : list point :=
  match last history with
  | None =>
      history ++ [mkPoint (sale_day_x passenger) 1 (price passenger)]
  | Some old_data =>
      if decide (sale_day_x passenger = pt_day old_data) then
        <[pred (length history) :=
            mkPoint (sale_day_x passenger) (pt_count old_data + 1)
                    (pt_revenue old_data + price passenger)]> history
      else
        history ++ [mkPoint (sale_day_x passenger) (pt_count old_data + 1)
                            (pt_revenue old_data + price passenger)]
  end.

Definition history_of (passengers : list Passenger) : list point :=
  foldl update_history [] (sorted_by sale_day_x passengers).

Definition history (od : OD) : list point := history_of (od_passengers od).

(** *** [OD.forecast(pricing, demand_matrix)] *)

Definition forecast (fuel : nat) (od : OD) (pricing : gmap Z Z)
    (demand_matrix : gmap Z (gmap Z Z)) : outcome forecast_ret * Env :=
  forecast_from fuel (history od) (mkEnv pricing demand_matrix).

End Model.

Arguments Passenger : clear implicits.
Arguments Leg : clear implicits.
Arguments OD : clear implicits.
Arguments Service : clear implicits.

(** ** Reference notions for the statements *)

Section Reference.
Context {Station : Type} `{EqDecision Station}.

(** The legs between the consecutive stops of a stop sequence. *)
Fixpoint consecutive_legs (stops : list Station) : list (Leg Station) :=
  match stops with
  | [] => []
  | o :: rest =>
      match rest with
      | [] => []
      | d :: _ => mkLeg o d :: consecutive_legs rest
      end
  end.

(** More than one leg leaves the same stop. *)
Definition branching (ls : list (Leg Station)) : Prop :=
  ∃ i j l1 l2, i ≠ j ∧ ls !! i = Some l1 ∧ ls !! j = Some l2
               ∧ leg_origin l1 = leg_origin l2.

(** No stop is an origin without being a destination too. *)
Definition no_source (ls : list (Leg Station)) : Prop :=
  ∀ station, station ∈ origins ls → station ∈ destinations ls.

(** The bookings sold up to a day, and what they brought in. *)
Definition bookings_until (day : Z) (passengers : list (Passenger Station))
  : list (Passenger Station) :=
  filter (λ passenger, sale_day_x passenger ≤ day) passengers.

Definition total_price (passengers : list (Passenger Station)) : Z :=
  foldr (λ passenger total, price passenger + total) 0 passengers.

(** [h] is the cumulative booking curve of [passengers]: its days are the
    sale days, each once and in ascending order, and every point counts
    the bookings sold up to its day. *)
Record curve_of (passengers : list (Passenger Station)) (h : list point)
  : Prop := {
  curve_sorted : StronglySorted Z.lt (pt_day <$> h);
  curve_days :
    ∀ day, day ∈ pt_day <$> h ↔ day ∈ sale_day_x <$> passengers;
  curve_points :
    ∀ pt, pt ∈ h →
      pt_count pt = Z.of_nat (length (bookings_until (pt_day pt) passengers))
      ∧ pt_revenue pt = total_price (bookings_until (pt_day pt) passengers)
}.

End Reference.

(** The bookings of a manifest for an origin and a destination, in the
    order of the manifest. *)
Definition bookings_for {Station : Type} `{EqDecision Station}
    (o d : Station) (manifest : list (Passenger Station))
  : list (Passenger Station) :=
  filter (λ passenger, p_origin passenger = o ∧ p_destination passenger = d)
         manifest.

(** An OD with the bookings of a manifest for it added to its own. *)
Definition with_bookings {Station : Type} `{EqDecision Station}
    (manifest : list (Passenger Station)) (od : OD Station) : OD Station :=
  mkOD (od_origin od) (od_destination od)
       (od_passengers od
        ++ bookings_for (od_origin od) (od_destination od) manifest).

(** *** The forecast, as a simulation of sales *)

(** Remaining seats of a tier, remaining demand of a tier on a day. *)
Definition seats (env : Env) (price : Z) : Z :=
  default 0 (env_pricing env !! price).
Definition demand (env : Env) (day price : Z) : Z :=
  default 0 (env_demand env !! day ≫= λ row, row !! price).

(** The cascade of one sale at [price] on the row of a day: every tier of
    [pricing] at or above [price] with demand left loses one unit. *)
Definition cascade (pricing : gmap Z Z) (price : Z) (row : gmap Z Z)
  : gmap Z Z :=
  map_imap (λ tier d,
      Some (if decide (is_Some (pricing !! tier) ∧ price ≤ tier ∧ 0 < d)
            then d - 1 else d)) row.

(** One seat sold at [price] on [day]. *)
Definition sale (day price : Z) (env : Env) : Env :=
  mkEnv (alter (λ n, n - 1) price (env_pricing env))
        (alter (cascade (env_pricing env) price) day (env_demand env)).

(** A tier on a day: one sale after the other while it has demand and
    seats left. *)
Inductive tier_sales (day price : Z) : point * Env → point * Env → Prop :=
  | tier_done pt env :
      ¬ (0 < demand env day price ∧ 0 < seats env price) →
      tier_sales day price (pt, env) (pt, env)
  | tier_sale pt env final :
      0 < demand env day price → 0 < seats env price →
      tier_sales day price
        (mkPoint day (pt_count pt + 1) (pt_revenue pt + price),
         sale day price env) final →
      tier_sales day price (pt, env) final.

(** A day: its tiers in the order of the list. *)
Inductive day_sales (day : Z) : list Z → point * Env → point * Env → Prop :=
  | day_done state : day_sales day [] state state
  | day_tier price prices state1 state2 state3 :
      tier_sales day price state1 state2 →
      day_sales day prices state2 state3 →
      day_sales day (price :: prices) state1 state3.

(** The days in the order of the list, each starting from the cumulative
    count and revenue of the one before; one point per day. *)
Inductive forecast_sales (prices : list Z)
  : list Z → Z * Z * Env → list point → Env → Prop :=
  | forecast_done count revenue env :
      forecast_sales prices [] (count, revenue, env) [] env
  | forecast_day day days count revenue env pt env1 pts env2 :
      day_sales day prices (mkPoint day count revenue, env) (pt, env1) →
      forecast_sales prices days (pt_count pt, pt_revenue pt, env1) pts env2 →
      forecast_sales prices (day :: days) (count, revenue, env) (pt :: pts) env2.

(** The keys of a dictionary, each once, in ascending order. *)
Definition ascending_keys {V} (d : gmap Z V) (keys : list Z) : Prop :=
  StronglySorted Z.lt keys ∧ ∀ k, k ∈ keys ↔ is_Some (d !! k).

(** Every row of the demand matrix has an entry for every price. *)
Definition rows_complete (pricing : gmap Z Z) (demand_matrix : gmap Z (gmap Z Z))
  : Prop :=
  ∀ day row price, demand_matrix !! day = Some row →
                   is_Some (pricing !! price) → is_Some (row !! price).

(** The earliest day of the demand matrix. *)
Definition earliest (demand_matrix : gmap Z (gmap Z Z)) (first : Z) : Prop :=
  is_Some (demand_matrix !! first)
  ∧ ∀ day, is_Some (demand_matrix !! day) → first ≤ day.

(** The demand matrix does not start before the last point of the history. *)
Definition up_to_date (history : list point) (demand_matrix : gmap Z (gmap Z Z))
  : Prop :=
  ∃ first, earliest demand_matrix first
           ∧ ∀ old, last history = Some old → pt_day old ≤ first.

(** Cumulative count and revenue the forecast starts from. *)
Definition carried (history : list point) : Z * Z :=
  match last history with
  | Some old => (pt_count old, pt_revenue old)
  | None => (0, 0)
  end.

(** The state the loops of the forecast run on without [KeyError] and
    within their fuel: [prices] are the keys of [pricing], every day of
    [days] has a row with every price, and no tier has more seats than
    [fuel]. *)
Record ready (prices days : list Z) (fuel : nat) (env : Env) : Prop := {
  ready_prices : ∀ price, price ∈ prices ↔ is_Some (env_pricing env !! price);
  ready_rows :
    ∀ day, day ∈ days →
      ∃ row, env_demand env !! day = Some row
             ∧ ∀ price, price ∈ prices → is_Some (row !! price);
  ready_fuel : ∀ price, seats env price ≤ Z.of_nat fuel
}.

(** What a forecast does to its two dictionaries, step by step: it takes
    one seat of a tier that has seats left, or one unit of the demand of a
    day and a tier that has demand left. *)
Inductive consumes : Env → Env → Prop :=
  | consumes_refl env : consumes env env
  | consumes_seat env env' price n :
      consumes env env' →
      env_pricing env' !! price = Some n → 0 < n →
      consumes env (mkEnv (<[price := n - 1]> (env_pricing env'))
                          (env_demand env'))
  | consumes_demand env env' day row price d :
      consumes env env' →
      env_demand env' !! day = Some row → row !! price = Some d → 0 < d →
      consumes env (mkEnv (env_pricing env')
                          (<[day := <[price := d - 1]> row]> (env_demand env'))).

(** All the seats of a pricing, and what they are worth. *)
Definition seats_total (pricing : gmap Z Z) : Z :=
  map_fold (λ _ n total, n + total) 0 pricing.
Definition seats_value (pricing : gmap Z Z) : Z :=
  map_fold (λ price n total, price * n + total) 0 pricing.

(** Nothing can be sold: no tier has both demand on a day of [days] and
    seats left. *)
Definition sold_out (prices days : list Z) (env : Env) : Prop :=
  ∀ day price, day ∈ days → price ∈ prices →
               ¬ (0 < demand env day price ∧ 0 < seats env price).

(** An outcome that is a result or a [KeyError]: the run ended, and not on
    an [IndexError]. *)
Definition settled {A} (o : outcome A) : Prop :=
  match o with
  | Ok _ => True
  | Raise e => e = KeyError
  | OutOfFuel => False
  end.

(** No seat count and no demand is negative. *)
Definition nonneg (env : Env) : Prop :=
  (∀ price n, env_pricing env !! price = Some n → 0 ≤ n)
  ∧ (∀ day row price d, env_demand env !! day = Some row →
                        row !! price = Some d → 0 ≤ d).

(** ** The data set of the program *)

Definition ply : string := "ply".
Definition lpd : string := "lpd".
Definition msc : string := "msc".


Definition manifest : list (Passenger string) :=
  [mkPassenger ply lpd (-30) 20; mkPassenger ply lpd (-25) 30;
   mkPassenger ply lpd (-20) 40; mkPassenger ply lpd (-20) 40;
   mkPassenger ply msc (-10) 50].

Definition od_ply_lpd : OD string :=
  mkOD ply lpd [mkPassenger ply lpd (-30) 20; mkPassenger ply lpd (-25) 30;
                mkPassenger ply lpd (-20) 40; mkPassenger ply lpd (-20) 40].

Definition pricing_7601 : gmap Z Z :=
  list_to_map [(10, 0); (20, 2); (30, 5); (40, 5); (50, 5)].

Definition demand_row (d10 d20 d30 d40 d50 : Z) : gmap Z Z :=
  list_to_map [(10, d10); (20, d20); (30, d30); (40, d40); (50, d50)].

Definition demand_matrix_7601 : gmap Z (gmap Z Z) :=
  list_to_map
    [(-7, demand_row 5 1 0 0 0); (-6, demand_row 5 2 1 1 1);
     (-5, demand_row 5 4 3 2 1); (-4, demand_row 5 5 4 3 1);
     (-3, demand_row 5 5 5 3 2); (-2, demand_row 5 5 5 4 3);
     (-1, demand_row 5 5 5 5 4); (0, demand_row 5 5 5 5 5)].

(** An OD with a booking sold after the first day of the demand matrix. *)
Definition od_late : OD string :=
  mkOD ply msc [mkPassenger ply msc (-5) 50].

Definition service_7601 : Service string :=
  load_itinerary (mkService "7601" (mkDate 739931) [] []) [ply; lpd; msc].

(** A service with four stops. *)
Definition service_abcd : Service string :=
  load_itinerary (mkService "abcd" (mkDate 739931) [] [])
                 ["A"; "B"; "C"; "D"]%string.

(** Two legs that leave the same stop, and two legs that do not meet. *)
Definition legs_branching : list (Leg string) :=
  [mkLeg "A" "B"; mkLeg "A" "C"]%string.
Definition legs_disconnected : list (Leg string) :=
  [mkLeg "A" "B"; mkLeg "C" "D"]%string.

(** The legs of the four stops, out of order. *)
Definition legs_shuffled : list (Leg string) :=
  [mkLeg "C" "D"; mkLeg "A" "B"; mkLeg "B" "C"]%string.

(** A demand matrix whose last row has no entry for the prices above 20. *)
Definition demand_matrix_gap : gmap Z (gmap Z Z) :=
  list_to_map [(-1, demand_row 5 5 5 5 4);
               (0, list_to_map [(10, 5); (20, 5)])].

(** A booking for an OD that the service does not have. *)
Definition passenger_back : Passenger string := mkPassenger msc ply (-3) 20.

(** ** Loops on fuel *)

Section Loops.
Context {Station : Type} `{EqDecision Station}.
Implicit Types (stops : list Station) (ls acc : list (Leg Station)).

Lemma itinerary_pass_nonempty ls stops :
  stops ≠ [] →
  ∃ stops', for_each itinerary_step ls stops = Ok stops' ∧ stops' ≠ [].
Proof.
  revert stops. induction ls as [|leg ls IH]; intros stops Hne; simpl.
  - eauto.
  - unfold itinerary_step. destruct (last stops) as [stop|] eqn:Hlast.
    + case_decide; apply IH; [|done]. by destruct stops.
    + by apply last_None in Hlast.
Qed.

Lemma itinerary_loop_no_raise fuel ls stops e :
  stops ≠ [] → itinerary_loop fuel ls stops ≠ Raise e.
Proof.
  revert stops. induction fuel as [|fuel IH]; intros stops Hne; simpl;
    (destruct (last stops) as [stop|] eqn:Hlast;
       [|by apply last_None in Hlast]); case_decide; try done.
  destruct (itinerary_pass_nonempty ls stops Hne) as (stops' & -> & Hne').
  by apply IH.
Qed.

Lemma service_origins_nil ls : service_origins ls = [] ↔ no_source ls.
Proof.
  unfold service_origins, no_source. split.
  - intros Hnil station Hin.
    destruct (decide (station ∈ destinations ls)) as [|Hnot]; [done|].
    by destruct (filter_nil_not_elem_of _ _ station Hnil Hnot).
  - intros Hall. destruct (filter _ _) as [|station l] eqn:Hf; [done|].
    assert (station ∈ filter (λ s, s ∉ destinations ls) (origins ls)) as Hin
      by (rewrite Hf; left).
    apply list_elem_of_filter in Hin as [Hnot Hin]. destruct Hnot. by apply Hall.
Qed.

Lemma legs_pass_nonempty ls stops acc :
  acc ≠ [] →
  ∃ acc', for_each (legs_step ls) stops acc = Ok acc' ∧ acc' ≠ [].
Proof.
  revert acc. induction stops as [|station stops IH]; intros acc Hne; simpl.
  - eauto.
  - unfold legs_step. destruct (last acc) as [l|] eqn:Hlast.
    + case_decide; apply IH; [|done]. by destruct acc.
    + by apply last_None in Hlast.
Qed.

Lemma legs_loop_no_raise fuel ls stops destination acc e :
  acc ≠ [] → legs_loop fuel ls stops destination acc ≠ Raise e.
Proof.
  revert acc. induction fuel as [|fuel IH]; intros acc Hne; simpl;
    (destruct (last acc) as [l|] eqn:Hlast;
       [|by apply last_None in Hlast]); case_decide; try done.
  destruct (legs_pass_nonempty ls stops acc Hne) as (acc' & -> & Hne').
  by apply IH.
Qed.

Lemma legs_loop_Ok fuel ls stops destination acc result :
  legs_loop fuel ls stops destination acc = Ok result →
  ∃ l, last result = Some l ∧ leg_destination l = destination.
Proof.
  revert acc. induction fuel as [|fuel IH]; intros acc; simpl;
    (destruct (last acc) as [l|] eqn:Hlast; [|done]);
    case_decide as Hd; try done.
  - intros [= <-]. exists l. split; [done|].
    by destruct (decide (leg_destination l = destination)).
  - destruct (for_each _ _ _) as [acc'| |]; try done. apply IH.
  - intros [= <-]. exists l. split; [done|].
    by destruct (decide (leg_destination l = destination)).
Qed.

(** A pass that appends nothing before the destination is reached is
    repeated for ever. *)
Lemma legs_loop_stuck fuel ls stops destination acc l :
  last acc = Some l → leg_destination l ≠ destination →
  for_each (legs_step ls) stops acc = Ok acc →
  legs_loop fuel ls stops destination acc = OutOfFuel.
Proof.
  intros Hlast Hd Hpass. induction fuel as [|fuel IH]; simpl;
    rewrite Hlast; case_decide; try done.
  by rewrite Hpass.
Qed.

Lemma legs_loop_pass fuel ls stops destination acc acc' l :
  last acc = Some l → leg_destination l ≠ destination →
  for_each (legs_step ls) stops acc = Ok acc' →
  legs_loop (S fuel) ls stops destination acc
  = legs_loop fuel ls stops destination acc'.
Proof.
  intros Hlast Hd Hpass. simpl. rewrite Hlast, Hpass. by case_decide.
Qed.

Lemma first_legs_nil ls origin stops :
  first_legs ls origin stops = [] ↔ origin ∉ stops ∨ origin ∉ origins ls.
Proof.
  unfold first_legs.
  assert (∀ acc, foldl (λ acc station,
                   if decide (station = origin)
                   then acc ++ legs_from ls station else acc) acc stops = []
                 ↔ acc = [] ∧ (origin ∉ stops ∨ legs_from ls origin = []))
    as Hgen.
  { induction stops as [|station stops IH]; intros acc; simpl.
    - split; [intros ->; split; [done|left; by intros ?%elem_of_nil]|by intros [-> _]].
    - rewrite IH. rewrite not_elem_of_cons. case_decide as Heq.
      + subst station. split.
        * intros [Happ Hor]. apply app_eq_nil in Happ as [-> Hnil]. auto.
        * intros [-> [[Hne _]|Hnil]]; [done|]. rewrite Hnil. auto.
      + split; [intros [-> [?|?]]; auto|].
        intros [-> [[_ ?]|?]]; auto. }
  rewrite Hgen. unfold legs_from, origins. split.
  - intros [_ [?|Hnil]]; [by left|right].
    intros (leg & Heq & Hin)%list_elem_of_fmap.
    by apply (filter_nil_not_elem_of _ _ leg Hnil).
  - intros [?|Hnot]; (split; [done|]); [by left|right].
    destruct (filter _ ls) as [|leg l] eqn:Hf; [done|].
    assert (leg ∈ filter (λ leg, origin = leg_origin leg) ls) as Hin
      by (rewrite Hf; left).
    apply list_elem_of_filter in Hin as [-> Hin].
    destruct Hnot. by apply list_elem_of_fmap_2.
Qed.

End Loops.

(** ** [Service.load_itinerary] and [Service.itinerary] *)

Section Itinerary.
Context {Station : Type} `{EqDecision Station}.
Implicit Types (stops rest before : list Station) (o d station : Station).
Implicit Types (ls : list (Leg Station)).

Lemma consecutive_legs_cons o d rest :
  consecutive_legs (o :: d :: rest)
  = mkLeg o d :: consecutive_legs (d :: rest).
Proof. reflexivity. Qed.

Lemma load_legs_consecutive stops : load_legs stops = consecutive_legs stops.
Proof.
  unfold load_legs. induction stops as [|o [|d rest] IH]; [done..|].
  cbn [length Nat.sub] in IH |- *. rewrite Nat.sub_0_r in *.
  cbn [seq omap list_omap]. unfold leg_at at 1.
  cbn [lookup list_lookup mbind option_bind].
  rewrite consecutive_legs_cons. f_equal. rewrite <- IH, <- fmap_S_seq.
  generalize (seq 0 (length rest)). intros l.
  induction l as [|i l IHl]; [done|]. cbn [fmap list_fmap omap list_omap].
  by rewrite IHl.
Qed.

Lemma destinations_consecutive o rest :
  destinations (consecutive_legs (o :: rest)) = rest.
Proof.
  revert o. induction rest as [|d rest IH]; intros o; [done|].
  cbn. f_equal. apply IH.
Qed.

Lemma origins_consecutive_elem stops station :
  station ∈ origins (consecutive_legs stops) → station ∈ stops.
Proof.
  induction stops as [|o [|d rest] IH]; cbn; [done| |].
  - by intros ?%elem_of_nil.
  - intros [->|Hin]%elem_of_cons; [left|right; by apply IH].
Qed.

Lemma last_not_origin stops station :
  NoDup stops → last stops = Some station →
  station ∉ origins (consecutive_legs stops).
Proof.
  induction stops as [|o [|d rest] IH]; intros Hnd Hlast; cbn.
  - by intros ?%elem_of_nil.
  - by intros ?%elem_of_nil.
  - apply NoDup_cons in Hnd as [Ho Hnd]. rewrite last_cons_cons in Hlast.
    intros [->|Hin]%elem_of_cons.
    + by apply Ho, last_Some_elem_of.
    + by apply IH.
Qed.

Lemma service_origins_consecutive o d rest :
  NoDup (o :: d :: rest) →
  service_origins (consecutive_legs (o :: d :: rest)) = [o].
Proof.
  intros [Ho Hnd]%NoDup_cons. unfold service_origins.
  rewrite destinations_consecutive. cbn [consecutive_legs origins fmap list_fmap leg_origin].
  rewrite filter_cons_True by done. f_equal.
  destruct (filter _ _) as [|station l] eqn:Hf; [done|].
  assert (station ∈ station :: l) as Hin by left.
  rewrite <- Hf in Hin. apply list_elem_of_filter in Hin as [Hnot Hin].
  destruct Hnot. by apply origins_consecutive_elem.
Qed.

(** One pass over the legs of a stop sequence follows the whole chain. *)
Lemma itinerary_pass_consecutive before o rest :
  for_each itinerary_step (consecutive_legs (o :: rest)) (before ++ [o])
  = Ok (before ++ o :: rest).
Proof.
  revert before o. induction rest as [|d rest IH]; intros before o; [done|].
  rewrite consecutive_legs_cons. cbn [for_each]. unfold itinerary_step at 1.
  rewrite last_snoc. cbn [leg_origin leg_destination].
  rewrite decide_True by done.
  rewrite (IH (before ++ [o]) d). by rewrite <- (assoc_L (++)).
Qed.

Lemma itinerary_consecutive fuel stops :
  NoDup stops → (2 ≤ length stops)%nat →
  itinerary_of_legs (S fuel) (consecutive_legs stops) = Ok stops.
Proof.
  intros Hnd Hlen. destruct stops as [|o [|d rest]]; [simpl in Hlen; lia..|].
  unfold itinerary_of_legs. rewrite service_origins_consecutive by done.
  cbn [itinerary_loop last]. rewrite decide_True by (cbn; left).
  pose proof (itinerary_pass_consecutive [] o (d :: rest)) as Hpass.
  cbn [app] in Hpass. rewrite Hpass.
  destruct (last (o :: d :: rest)) as [station|] eqn:Hlast;
    [|by apply last_None in Hlast].
  pose proof (last_not_origin _ _ Hnd Hlast) as Hnot.
  destruct fuel; cbn [itinerary_loop]; rewrite Hlast;
    by rewrite decide_False.
Qed.

(** C4. For every sequence of at least two pairwise-distinct stations,
    the itinerary of a service loaded with that sequence is the sequence
    itself: the loop of [Service.itinerary] ends after one pass over the
    legs, whatever fuel is left. *)
Theorem itinerary_load_itinerary (svc : Service Station) stops fuel :
  NoDup stops → (2 ≤ length stops)%nat →
  itinerary (S fuel) (load_itinerary svc stops) = Ok stops.
Proof.
  intros Hnd Hlen. unfold itinerary, load_itinerary. cbn [legs].
  rewrite load_legs_consecutive. by apply itinerary_consecutive.
Qed.

(** C7, as the program has it.  [Service.itinerary] has no
    [MalformedItinerary] error: it fails exactly when no stop is an origin
    without being a destination, and then with the [IndexError] of
    [itinerary[-1]] on the empty list.  Branching legs and legs that do
    not meet are not detected. *)
Theorem itinerary_raises_iff fuel (svc : Service Station) e :
  itinerary fuel svc = Raise e ↔ e = IndexError ∧ no_source (legs svc).
Proof.
  unfold itinerary, itinerary_of_legs. rewrite <- service_origins_nil.
  destruct (service_origins (legs svc)) as [|o l] eqn:Hso.
  - destruct fuel; cbn; (split; [by intros [= <-]|by intros [-> _]]).
  - split; [|by intros [_ ?]].
    intros Hraise. by apply itinerary_loop_no_raise in Hraise.
Qed.

(** C6, as the program has it.  [OD.legs] has no [UnreachableOD] error:
    it fails when the itinerary fails, or with the [IndexError] of
    [legs[-1]] on the empty list when the origin is not a stop of the
    itinerary or no leg leaves it; and a list it returns ends at the
    destination of the OD. *)
Theorem od_legs_raises_iff fuel (svc : Service Station) (od : OD Station) :
  (∀ e, od_legs fuel svc od = Raise e ↔
        itinerary fuel svc = Raise e
        ∨ (e = IndexError
           ∧ ∃ stops, itinerary fuel svc = Ok stops
               ∧ (od_origin od ∉ stops
                  ∨ od_origin od ∉ origins (legs svc))))
  ∧ (∀ result, od_legs fuel svc od = Ok result →
       ∃ l, last result = Some l ∧ leg_destination l = od_destination od).
Proof.
  unfold od_legs. destruct (itinerary fuel svc) as [stops|e'|] eqn:Hit; cbn.
  - split.
    + intros e. setoid_rewrite <- first_legs_nil.
      destruct (first_legs _ _ stops) as [|l acc] eqn:Hfirst.
      * assert (legs_loop fuel (legs svc) stops (od_destination od) []
                = Raise IndexError) as -> by (by destruct fuel).
        split.
        -- intros [= <-]. right. eauto.
        -- by intros [|[-> _]].
      * split.
        -- intros Hraise. by apply legs_loop_no_raise in Hraise.
        -- intros [|[_ (stops' & [= <-] & Hnil)]]; [done|].
           by rewrite Hfirst in Hnil.
    + intros result. apply legs_loop_Ok.
  - split; [|done]. intros e. split; [intros [= ->]; by left|].
    by intros [[= ->]|[_ (stops & ? & _)]].
  - split; [|done]. intros e. split; [done|].
    by intros [?|[_ (stops & ? & _)]].
Qed.

(** C9, as the program has it.  [Service.day_x] is the number of days
    from the departure date to today: negative before the departure, zero
    on the day of the departure and positive after it. *)
Theorem day_x_sign today (svc : Service Station) :
  day_x today svc = toordinal today - toordinal (departure_date svc)
  ∧ (day_x today svc < 0 ↔ toordinal today < toordinal (departure_date svc))
  ∧ (day_x today svc = 0 ↔ toordinal today = toordinal (departure_date svc))
  ∧ (0 < day_x today svc ↔ toordinal (departure_date svc) < toordinal today).
Proof. unfold day_x, date_sub. cbn. lia. Qed.

End Itinerary.

Lemma itinerary_load_itinerary_witness :
  itinerary 1 service_7601 = Ok [ply; lpd; msc].
Proof.
  apply (itinerary_load_itinerary _ [ply; lpd; msc] 0%nat).
  - apply (bool_decide_unpack _). vm_compute. reflexivity.
  - simpl. lia.
Defined.

(** C7 fails on the program: two legs leaving the same stop, and two legs
    that do not meet, are resolved without any error, to stop sequences that
    are no path. *)
Lemma itinerary_accepts_malformed :
  branching legs_branching
  ∧ itinerary_of_legs 1 legs_branching = Ok ["A"; "A"; "B"]%string
  ∧ itinerary_of_legs 1 legs_disconnected = Ok ["A"; "C"; "D"]%string
  ∧ ∀ fuel e, itinerary_of_legs fuel legs_branching ≠ Raise e
              ∧ itinerary_of_legs fuel legs_disconnected ≠ Raise e.
Proof.
  split; [|split; [|split]].
  - exists 0%nat, 1%nat, (mkLeg "A" "B")%string, (mkLeg "A" "C")%string.
    by repeat split.
  - reflexivity.
  - reflexivity.
  - intros fuel e. split; by apply itinerary_loop_no_raise.
Qed.

(** C6 fails on the program: with a destination that is never reached
    [OD.legs] runs for ever, and with an origin that is no stop of the
    itinerary it fails with [IndexError]. *)
Lemma od_legs_unreachable_no_error :
  (∀ fuel, od_legs fuel service_7601 (mkOD lpd ply []) = OutOfFuel)
  ∧ (∀ fuel, od_legs (S fuel) service_7601 (mkOD "xyz"%string msc [])
             = Raise IndexError).
Proof.
  split; intros [|fuel]; try reflexivity.
  unfold od_legs.
  replace (itinerary (S fuel) service_7601) with (Ok [ply; lpd; msc])
    by (by destruct fuel).
  cbn [mbind outcome_bind od_destination od_origin].
  by eapply legs_loop_stuck.
Qed.

(** C5 fails on the program.  On the itinerary A-B-C-D the OD from A to C
    crosses the legs A-B and B-C, but the first pass of the loop of
    [OD.legs] goes on to the end of the itinerary: it appends B-C and then
    C-D, the destination C is no longer the end of the last leg, and no
    later pass appends anything. *)
Theorem od_legs_overshoots :
  consecutive_legs ["A"; "B"; "C"]%string
    = [mkLeg "A" "B"; mkLeg "B" "C"]%string
  ∧ for_each (legs_step (legs service_abcd)) ["A"; "B"; "C"; "D"]%string
      [mkLeg "A" "B"]%string
    = Ok [mkLeg "A" "B"; mkLeg "B" "C"; mkLeg "C" "D"]%string
  ∧ ∀ fuel, od_legs fuel service_abcd (mkOD "A" "C" [])%string = OutOfFuel.
Proof.
  split; [reflexivity|split; [reflexivity|]].
  intros [|fuel]; [reflexivity|]. unfold od_legs.
  replace (itinerary (S fuel) service_abcd)
    with (Ok ["A"; "B"; "C"; "D"]%string) by (by destruct fuel).
  cbn [mbind outcome_bind od_destination od_origin].
  erewrite legs_loop_pass; [|reflexivity|done|reflexivity].
  by eapply legs_loop_stuck.
Qed.

(** C9 fails on the program: the day after the departure [day_x] is 1, not
    a negative number, and not the number of days from today to the
    departure. *)
Lemma day_x_after_departure :
  let today := mkDate 739932 in
  toordinal (departure_date service_7601) < toordinal today
  ∧ day_x today service_7601 = 1
  ∧ ¬ day_x today service_7601 < 0
  ∧ day_x today service_7601
    ≠ toordinal (departure_date service_7601) - toordinal today.
Proof. cbn. lia. Qed.

(** ** Sorting *)

Section Sorting.
Context {A : Type} (key : A → Z).
Implicit Types (x : A) (l : list A).

Lemma insert_by_Permutation x l : insert_by key x l ≡ₚ x :: l.
Proof.
  induction l as [|y l IH]; cbn; [done|]. case_decide; [done|].
  rewrite IH. apply Permutation_swap.
Qed.

Lemma sorted_by_Permutation l : sorted_by key l ≡ₚ l.
Proof.
  induction l as [|x l IH]; cbn; [done|].
  by rewrite insert_by_Permutation, IH.
Qed.

Lemma insert_by_sorted x l :
  StronglySorted (λ a b, key a ≤ key b) l →
  StronglySorted (λ a b, key a ≤ key b) (insert_by key x l).
Proof.
  induction 1 as [|y l Hl IH Hy]; cbn; [by repeat constructor|].
  case_decide as Hle.
  - constructor; [by constructor|]. constructor; [done|].
    eapply Forall_impl; [exact Hy|]. cbn. intros z ?. lia.
  - constructor; [done|]. rewrite insert_by_Permutation.
    constructor; [lia|done].
Qed.

Lemma sorted_by_sorted l :
  StronglySorted (λ a b, key a ≤ key b) (sorted_by key l).
Proof.
  induction l as [|x l IH]; cbn; [constructor|]. by apply insert_by_sorted.
Qed.
End Sorting.

Lemma sorted_keys_sorted {V} (d : gmap Z V) :
  StronglySorted Z.lt (sorted_keys d).
Proof.
  unfold sorted_keys.
  assert (NoDup (sorted_by id (map_to_list d).*1)) as Hnd.
  { rewrite sorted_by_Permutation. apply NoDup_fst_map_to_list. }
  pose proof (sorted_by_sorted id (map_to_list d).*1) as Hs.
  induction Hs as [|x l Hl IH Hx]; [constructor|].
  apply NoDup_cons in Hnd as [Hx' Hnd]. constructor; [by apply IH|].
  apply Forall_forall. intros y Hy.
  rewrite Forall_forall in Hx. specialize (Hx y Hy). cbn in Hx.
  assert (x ≠ y) by (by intros ->). lia.
Qed.

Lemma sorted_keys_elem {V} (d : gmap Z V) k :
  k ∈ sorted_keys d ↔ is_Some (d !! k).
Proof.
  unfold sorted_keys. rewrite sorted_by_Permutation.
  rewrite <- elem_of_dom, list_elem_of_fmap. split.
  - intros ([k' v] & -> & Hin). apply elem_of_dom.
    apply elem_of_map_to_list in Hin. by exists v.
  - intros [v Hv]%elem_of_dom. exists (k, v). split; [done|].
    by apply elem_of_map_to_list.
Qed.

(** ** [OD.history] *)

Section History.
Context {Station : Type}.
Implicit Types (p q : Passenger Station) (l ps : list (Passenger Station)).
Implicit Types (h : list point) (pt : point).

Lemma filter_all {A} (P : A → Prop) `{∀ x, Decision (P x)} (xs : list A) :
  (∀ x, x ∈ xs → P x) → filter P xs = xs.
Proof.
  induction xs as [|x xs IH]; intros Hall; [done|].
  rewrite filter_cons_True by (apply Hall; left).
  f_equal. apply IH. intros y Hy. apply Hall. by right.
Qed.

Lemma total_price_cons p l : total_price (p :: l) = price p + total_price l.
Proof. reflexivity. Qed.

Lemma total_price_app l1 l2 :
  total_price (l1 ++ l2) = total_price l1 + total_price l2.
Proof.
  unfold total_price. induction l1 as [|p l1 IH]; cbn; [done|].
  rewrite IH. lia.
Qed.

Lemma total_price_Permutation l1 l2 :
  l1 ≡ₚ l2 → total_price l1 = total_price l2.
Proof. unfold total_price. induction 1; cbn; lia. Qed.

Lemma curve_of_Permutation l1 l2 h : l1 ≡ₚ l2 → curve_of l1 h → curve_of l2 h.
Proof.
  intros Hperm [Hs Hd Hp]. split; [done| |].
  - intros day. by rewrite <- Hperm.
  - intros pt Hpt. destruct (Hp pt Hpt) as [-> ->]. unfold bookings_until.
    split; [by rewrite Hperm|]. apply total_price_Permutation.
    by rewrite Hperm.
Qed.

(** A booking on a later day than every point so far adds one point. *)
Lemma curve_snoc l p h :
  (∀ q, q ∈ l → sale_day_x q ≤ sale_day_x p) →
  StronglySorted Z.lt (pt_day <$> h) →
  (∀ pt, pt ∈ h →
     pt_day pt < sale_day_x p
     ∧ pt_count pt = Z.of_nat (length (bookings_until (pt_day pt) l))
     ∧ pt_revenue pt = total_price (bookings_until (pt_day pt) l)) →
  (∀ day, day ∈ sale_day_x <$> l → day ∈ pt_day <$> h ∨ day = sale_day_x p) →
  (∀ day, day ∈ pt_day <$> h → day ∈ sale_day_x <$> l) →
  curve_of (l ++ [p])
    (h ++ [mkPoint (sale_day_x p) (Z.of_nat (length l) + 1)
                   (total_price l + price p)]).
Proof.
  intros Hmax Hs Hp Hd1 Hd2.
  assert (bookings_until (sale_day_x p) (l ++ [p]) = l ++ [p]) as Hall.
  { apply filter_all. intros q [Hq| ->%list_elem_of_singleton]%elem_of_app;
      [by apply Hmax|done]. }
  assert (∀ day, day < sale_day_x p →
                 bookings_until day (l ++ [p]) = bookings_until day l) as Hlt.
  { intros day Hday. unfold bookings_until.
    rewrite filter_app, filter_cons_False by lia. apply app_nil_r. }
  split.
  - rewrite fmap_app. apply StronglySorted_app_2; [|done|by repeat constructor].
    intros d1 d2 (pt & -> & Hpt)%list_elem_of_fmap ->%list_elem_of_singleton.
    by apply Hp.
  - intros day. rewrite !fmap_app, !elem_of_app. cbn.
    rewrite !list_elem_of_singleton.
    split; [intros [?%Hd2|?]; auto|intros [[?|?]%Hd1|?]; auto].
  - intros pt [Hpt| ->%list_elem_of_singleton]%elem_of_app.
    + destruct (Hp pt Hpt) as (? & ? & ?). by rewrite Hlt.
    + cbn. rewrite Hall, length_app, total_price_app. cbn. lia.
Qed.

Lemma update_history_curve l p h :
  (∀ q, q ∈ l → sale_day_x q ≤ sale_day_x p) →
  curve_of l h → curve_of (l ++ [p]) (update_history h p).
Proof.
  intros Hmax [Hs Hd Hp]. unfold update_history.
  destruct (last h) as [old|] eqn:Hlast.
  - apply last_Some in Hlast as [h0 ->].
    rewrite fmap_app in Hs. apply StronglySorted_app in Hs as (Hlt & Hs0 & _).
    assert (∀ pt, pt ∈ h0 → pt_day pt < pt_day old) as Hh0.
    { intros pt Hpt. apply Hlt; [by apply list_elem_of_fmap_2|cbn; left]. }
    assert (∀ q, q ∈ l → sale_day_x q ≤ pt_day old) as Hold.
    { intros q Hq.
      assert (sale_day_x q ∈ pt_day <$> h0 ++ [old]) as Hin
        by (by apply Hd, list_elem_of_fmap_2).
      apply list_elem_of_fmap in Hin as (pt & -> & Hin).
      apply elem_of_app in Hin as [Hin| ->%list_elem_of_singleton]; [|done].
      specialize (Hh0 pt Hin). lia. }
    assert (pt_day old ≤ sale_day_x p) as Hle.
    { assert (pt_day old ∈ sale_day_x <$> l) as Hin.
      { apply Hd. rewrite fmap_app, elem_of_app. right. cbn. left. }
      apply list_elem_of_fmap in Hin as (q & -> & Hq). by apply Hmax. }
    destruct (Hp old) as [Hc Hr]; [rewrite elem_of_app; right; left|].
    rewrite (filter_all _ l Hold : bookings_until (pt_day old) l = l) in Hc, Hr.
    rewrite Hc, Hr. case_decide as Hday.
    + replace (pred (length (h0 ++ [old]))) with (length h0 + 0)%nat
        by (rewrite length_app; cbn; lia).
      rewrite insert_app_r. cbn [insert list_insert].
      apply curve_snoc; [done|done|..].
      * intros pt Hpt. specialize (Hh0 pt Hpt). split; [lia|].
        apply Hp. rewrite elem_of_app. by left.
      * intros day Hin%Hd. rewrite fmap_app, elem_of_app in Hin.
        destruct Hin as [|Hin]; [by left|right].
        cbn in Hin. apply list_elem_of_singleton in Hin. lia.
      * intros day Hin. apply Hd. rewrite fmap_app, elem_of_app. by left.
    + apply curve_snoc; [done|..].
      * rewrite fmap_app. apply StronglySorted_app_2;
          [done..|by repeat constructor].
      * intros pt Hpt. split; [|by apply Hp].
        apply elem_of_app in Hpt as [Hpt| ->%list_elem_of_singleton];
          [specialize (Hh0 pt Hpt)|]; lia.
      * intros day Hin%Hd. by left.
      * intros day Hin. by apply Hd.
  - apply last_None in Hlast as ->.
    assert (l = []) as ->.
    { destruct l as [|q l]; [done|].
      assert (sale_day_x q ∈ pt_day <$> []) as Hin by (apply Hd; cbn; left).
      by apply elem_of_nil in Hin. }
    apply (curve_snoc [] p []); [by intros q ?%elem_of_nil|constructor|..].
    + by intros pt ?%elem_of_nil.
    + by intros day ?%elem_of_nil.
    + by intros day ?%elem_of_nil.
Qed.

Lemma history_sorted_curve l :
  StronglySorted (λ a b, sale_day_x a ≤ sale_day_x b) l →
  curve_of l (foldl update_history [] l).
Proof.
  induction l as [|p l IH] using rev_ind; intros Hs.
  - split; [constructor|done|by intros pt ?%elem_of_nil].
  - rewrite foldl_snoc. apply StronglySorted_app in Hs as (Hle & Hs & _).
    apply update_history_curve; [|by apply IH].
    intros q Hq. apply Hle; [done|left].
Qed.

Lemma history_of_curve ps : curve_of ps (history_of ps).
Proof.
  apply (curve_of_Permutation (sorted_by sale_day_x ps));
    [apply sorted_by_Permutation|].
  apply history_sorted_curve, sorted_by_sorted.
Qed.

Lemma bookings_until_mono ps day1 day2 :
  day1 ≤ day2 →
  (length (bookings_until day1 ps) ≤ length (bookings_until day2 ps))%nat
  ∧ ((∀ p, p ∈ ps → 0 ≤ price p) →
     total_price (bookings_until day1 ps)
     ≤ total_price (bookings_until day2 ps)).
Proof.
  intros Hle. unfold bookings_until.
  induction ps as [|p ps [IHn IHt]]; [done|].
  rewrite !filter_cons. split.
  - repeat case_decide; cbn; lia.
  - intros Hpos. specialize (Hpos p (list_elem_of_here _ _)) as Hp.
    assert (∀ q, q ∈ ps → 0 ≤ price q) as Hps
      by (intros q Hq; apply Hpos; by right).
    specialize (IHt Hps).
    repeat case_decide; rewrite ?total_price_cons; lia.
Qed.

Lemma sorted_by_day_impl (R : relation Z) (f : point → Z) h :
  StronglySorted Z.lt (pt_day <$> h) →
  (∀ a b, a ∈ h → b ∈ h → pt_day a < pt_day b → R (f a) (f b)) →
  StronglySorted R (f <$> h).
Proof.
  induction h as [|pt h IH]; cbn; intros Hs Himpl; [constructor|].
  apply StronglySorted_cons in Hs as [Hpt Hs]. constructor.
  - apply IH; [done|]. intros a b Ha Hb. apply Himpl; by right.
  - apply Forall_fmap, Forall_forall. intros b Hb. cbn.
    apply Himpl; [left|by right|].
    rewrite Forall_fmap, Forall_forall in Hpt. by apply Hpt.
Qed.

(** C8. The history of an OD is the cumulative booking curve of its
    bookings: one point per distinct sale day, in strictly ascending day
    order, each with the number and the total price of the bookings sold
    up to its day; counts never decrease, revenues never decrease when no
    price is negative, and an OD without bookings has an empty history. *)
Theorem history_curve (od : OD Station) :
  curve_of (od_passengers od) (history od)
  ∧ StronglySorted Z.le (pt_count <$> history od)
  ∧ ((∀ p, p ∈ od_passengers od → 0 ≤ price p) →
     StronglySorted Z.le (pt_revenue <$> history od))
  ∧ (od_passengers od = [] → history od = []).
Proof.
  unfold history.
  pose proof (history_of_curve (od_passengers od)) as Hcurve.
  split; [done|]. destruct Hcurve as [Hs Hd Hp]. split; [|split].
  - apply sorted_by_day_impl; [done|]. intros a b Ha Hb Hlt.
    destruct (Hp a Ha) as [-> _], (Hp b Hb) as [-> _].
    apply inj_le, bookings_until_mono. lia.
  - intros Hpos. apply sorted_by_day_impl; [done|]. intros a b Ha Hb Hlt.
    destruct (Hp a Ha) as [_ ->], (Hp b Hb) as [_ ->].
    apply bookings_until_mono; [lia|done].
  - by intros ->.
Qed.

End History.

(** ** [OD.forecast]: the guard on the dates *)

Lemma bind_run {A B} (m : M A) (f : A → M B) (env : Env) :
  (m ≫= f) env
  = match m env with
    | (Ok a, env') => f a env'
    | (Raise e, env') => (Raise e, env')
    | (OutOfFuel, env') => (OutOfFuel, env')
    end.
Proof. reflexivity. Qed.

Lemma sorted_keys_ascending {V} (d : gmap Z V) :
  ascending_keys d (sorted_keys d).
Proof. split; [apply sorted_keys_sorted|apply sorted_keys_elem]. Qed.

Lemma head_sorted_keys (demand_matrix : gmap Z (gmap Z Z)) first :
  head (sorted_keys demand_matrix) = Some first ↔ earliest demand_matrix first.
Proof.
  pose proof (sorted_keys_sorted demand_matrix) as Hs.
  pose proof (sorted_keys_elem demand_matrix) as He.
  unfold earliest. destruct (sorted_keys demand_matrix) as [|k keys]; cbn.
  - split; [done|]. intros [Hin%He _]. by apply elem_of_nil in Hin.
  - apply StronglySorted_cons in Hs as [Hk _]. rewrite Forall_forall in Hk.
    split.
    + intros [= <-]. split; [apply He; left|].
      intros day [->|Hin]%He%elem_of_cons; [done|]. specialize (Hk day Hin). lia.
    + intros [Hin%He Hmin]. f_equal.
      assert (first ≤ k) by (apply Hmin, He; left).
      apply elem_of_cons in Hin as [->|Hin]; [done|]. specialize (Hk first Hin). lia.
Qed.

(** The three ways [OD.forecast] goes on after its guard. *)
Lemma forecast_from_cases fuel history env :
  forecast_from fuel history env
  = match sorted_keys (env_demand env) with
    | [] => (Raise IndexError, env)
    | first :: _ =>
        let last_data :=
          match last history with
          | Some old => old
          | None => mkPoint (first - 1) 0 0
          end in
        if decide (pt_day last_data > first) then
          (Ok (RetError "Error, the demand_matrix is not up to date"), env)
        else
          match for_in (day_step fuel (sorted_keys (env_pricing env)))
                  (sorted_keys (env_demand env)) [last_data] env with
          | (Ok forecast, env') =>
              match forecast with
              | [] => (Raise IndexError, env')
              | _ :: forecast' => (Ok (RetForecast forecast'), env')
              end
          | (Raise e, env') => (Raise e, env')
          | (OutOfFuel, env') => (OutOfFuel, env')
          end
    end.
Proof.
  unfold forecast_from. rewrite bind_run. cbn [gets]. rewrite bind_run.
  cbn [gets]. rewrite bind_run.
  destruct (sorted_keys (env_demand env)) as [|first days] eqn:Hdays.
  - destruct history as [|pt h]; [reflexivity|].
    rewrite decide_False by done. unfold lift at 1, last_item.
    destruct (last (pt :: h)) eqn:Hlast; [reflexivity|].
    by apply last_None in Hlast.
  - cbn zeta.
    assert (∀ last_data,
      (lift (first_item (first :: days)) ≫= λ first0,
         if decide (pt_day last_data > first0)
         then mret (RetError "Error, the demand_matrix is not up to date")
         else for_in (day_step fuel (sorted_keys (env_pricing env)))
                (first :: days) [last_data]
              ≫= λ forecast0, lift (del_first forecast0)
              ≫= λ forecast', mret (RetForecast forecast')) env
      = if decide (pt_day last_data > first)
        then (Ok (RetError "Error, the demand_matrix is not up to date"), env)
        else match for_in (day_step fuel (sorted_keys (env_pricing env)))
                     (first :: days) [last_data] env with
             | (Ok forecast, env') =>
                 match forecast with
                 | [] => (Raise IndexError, env')
                 | _ :: forecast' => (Ok (RetForecast forecast'), env')
                 end
             | (Raise e, env') => (Raise e, env')
             | (OutOfFuel, env') => (OutOfFuel, env')
             end) as Hrest.
    { intros last_data. rewrite bind_run. cbn [lift first_item].
      case_decide; [reflexivity|]. rewrite bind_run.
      destruct (for_in _ _ _ _) as [[[|pt forecast]| |] env']; reflexivity. }
    destruct history as [|pt h].
    + rewrite decide_True by done. cbn [last]. rewrite bind_run.
      cbn [lift first_item mret M_ret]. apply Hrest.
    + rewrite decide_False by done. unfold lift at 1, last_item.
      destruct (last (pt :: h)) as [old|] eqn:Hlast;
        [|by apply last_None in Hlast].
      apply Hrest.
Qed.

Section Guard.
Context {Station : Type}.

Lemma forecast_stale_cases fuel (od : OD Station) pricing demand_matrix :
  (∃ msg, (forecast fuel od pricing demand_matrix).1 = Ok (RetError msg)) →
  ∃ first old, earliest demand_matrix first
               ∧ last (history od) = Some old ∧ first < pt_day old.
Proof.
  unfold forecast. rewrite forecast_from_cases.
  pose proof (head_sorted_keys demand_matrix) as Hhead.
  cbn [env_demand env_pricing].
  destruct (sorted_keys demand_matrix) as [|first days]; [by intros [? ?]|].
  cbn zeta. case_decide as Hstale.
  - intros _. destruct (last (history od)) as [old|]; [|cbn in Hstale; lia].
    exists first, old. split; [by apply Hhead|]. split; [done|lia].
  - by destruct (for_in _ _ _ _) as [[[|pt forecast]| |] env']; intros [? ?].
Qed.

(** C3. [OD.forecast] reports that the demand matrix is out of date
    exactly when the history is not empty and the earliest day of the
    demand matrix is before the day of the last point of the history; it
    then returns at once, with [pricing] and [demand_matrix] as they
    were. *)
Theorem forecast_stale_iff fuel (od : OD Station) pricing demand_matrix :
  ((∃ msg, (forecast fuel od pricing demand_matrix).1 = Ok (RetError msg))
   ↔ ∃ first old, earliest demand_matrix first
                  ∧ last (history od) = Some old ∧ first < pt_day old)
  ∧ (∀ msg, (forecast fuel od pricing demand_matrix).1 = Ok (RetError msg) →
       msg = "Error, the demand_matrix is not up to date"%string
       ∧ (forecast fuel od pricing demand_matrix).2
         = mkEnv pricing demand_matrix).
Proof.
  unfold forecast. rewrite forecast_from_cases.
  pose proof (head_sorted_keys demand_matrix) as Hhead.
  cbn [env_demand env_pricing].
  destruct (sorted_keys demand_matrix) as [|first days].
  { cbn. split; [|done]. split; [by intros [? ?]|].
    intros (first & old & Hfirst%Hhead & _). done. }
  cbn zeta. case_decide as Hstale.
  - cbn. split; [|by intros msg [= <-]].
    split; [intros _|by eauto].
    destruct (last (history od)) as [old|]; [|cbn in Hstale; lia].
    exists first, old. split; [by apply Hhead|]. split; [done|lia].
  - destruct (for_in _ _ _ _) as [[[|pt forecast]| |] env']; cbn;
      (split; [|done]); (split; [by intros [? ?]|]);
      intros (first' & old & Hfirst%Hhead & Hlast & Hlt);
      rewrite Hlast in Hstale; cbn in Hfirst; simplify_eq; lia.
Qed.

End Guard.

(** ** Fuel *)

(** More fuel does not change a run that ended. *)
Lemma for_in_more_fuel {A S} (body1 body2 : S → A → M S) l :
  (∀ s x env r env', body1 s x env = (r, env') → r ≠ OutOfFuel →
                     body2 s x env = (r, env')) →
  ∀ s env r env', for_in body1 l s env = (r, env') → r ≠ OutOfFuel →
                  for_in body2 l s env = (r, env').
Proof.
  intros Hbody. induction l as [|x l IH]; intros s env r env';
    cbn [for_in]; [done|].
  rewrite !bind_run. intros Hrun Hr.
  destruct (body1 s x env) as [o env1] eqn:Hb1.
  assert (o ≠ OutOfFuel) as Ho by (intros ->; by simplify_eq).
  rewrite (Hbody _ _ _ _ _ Hb1 Ho). destruct o as [s'| |]; [by apply IH|done..].
Qed.

Lemma sell_loop_more_fuel n m prices day pt price env r env' :
  (n ≤ m)%nat → sell_loop n prices day pt price env = (r, env') →
  r ≠ OutOfFuel → sell_loop m prices day pt price env = (r, env').
Proof.
  revert m pt env. induction n as [|n IH]; intros m pt env Hle;
    destruct m as [|m]; try lia; cbn [sell_loop]; rewrite !bind_run;
    (destruct (get_demand day price env) as [[d| |] env1]; [|done..]);
    (case_decide; [|done]); rewrite !bind_run;
    (destruct (get_pricing price env1) as [[k| |] env2]; [|done..]);
    (case_decide; [|done]); try (by intros [= <- <-]); try done.
  rewrite !bind_run.
  destruct (sell_ticket prices day price pt env2) as [[pt'| |] env3];
    [|done..].
  apply IH. lia.
Qed.

Lemma forecast_from_more_fuel n m history env r env' :
  (n ≤ m)%nat → forecast_from n history env = (r, env') →
  r ≠ OutOfFuel → forecast_from m history env = (r, env').
Proof.
  intros Hle. rewrite !forecast_from_cases.
  destruct (sorted_keys (env_demand env)) as [|first days]; [done|].
  cbn zeta. case_decide; [done|].
  match goal with
  | |- context [for_in (day_step n ?prices) ?l ?s env] =>
      pose proof (for_in_more_fuel (day_step n prices) (day_step m prices) l)
        as Hdays;
      destruct (for_in (day_step n prices) l s env) as [o env1] eqn:Hn
  end.
  intros Hrun Hr.
  assert (o ≠ OutOfFuel) as Ho by (intros ->; by simplify_eq).
  erewrite Hdays; [done| |done..].
  intros forecast day e0 r0 e0'. unfold day_step. rewrite !bind_run.
  destruct (lift (last_item forecast) e0) as [[previous| |] e1]; [|done..].
  rewrite !bind_run.
  match goal with
  | |- context [for_in (sell_loop n ?prices ?day) ?l ?s e1] =>
      pose proof (for_in_more_fuel (sell_loop n prices day)
                    (sell_loop m prices day) l
                    (λ pt price e3 r3 e4,
                       sell_loop_more_fuel n m prices day pt price e3 r3 e4
                         Hle)) as Htiers;
      destruct (for_in (sell_loop n prices day) l s e1) as [o' e2] eqn:Hn'
  end.
  intros Hrun' Hr'.
  assert (o' ≠ OutOfFuel) as Ho' by (intros ->; by simplify_eq).
  by rewrite (Htiers _ _ _ _ Hn' Ho').
Qed.

(** C2. On the data set of the program: from the history
    [[-30,1,20],[-25,2,50],[-20,4,130]], with the pricing
    [{10:0, 20:2, 30:5, 40:5, 50:5}] and the demand matrix of the days -7
    to 0, the forecast has 8 points, the first [-7, 5, 150] and the last
    [0, 21, 770]; no tier sells more than three seats on a day. *)
Theorem forecast_7601 {Station : Type} (od : OD Station) (fuel : nat) :
  history od = [mkPoint (-30) 1 20; mkPoint (-25) 2 50; mkPoint (-20) 4 130] →
  (3 ≤ fuel)%nat →
  ∃ pts, (forecast fuel od pricing_7601 demand_matrix_7601).1
         = Ok (RetForecast pts)
         ∧ length pts = 8%nat
         ∧ head pts = Some (mkPoint (-7) 5 150)
         ∧ last pts = Some (mkPoint 0 21 770).
Proof.
  intros Hhistory Hfuel. unfold forecast.
  pose proof (forecast_from_more_fuel 3 fuel (history od)
                (mkEnv pricing_7601 demand_matrix_7601)) as Hmore.
  destruct (forecast_from 3 (history od)
              (mkEnv pricing_7601 demand_matrix_7601)) as [r env'] eqn:Hrun.
  assert (r = Ok (RetForecast
                [mkPoint (-7) 5 150; mkPoint (-6) 6 170; mkPoint (-5) 9 260;
                 mkPoint (-4) 12 360; mkPoint (-3) 15 480; mkPoint (-2) 18 620;
                 mkPoint (-1) 21 770; mkPoint 0 21 770])) as ->.
  { transitivity (forecast_from 3 (history od)
                    (mkEnv pricing_7601 demand_matrix_7601)).1;
      [by rewrite Hrun|].
    rewrite Hhistory. vm_compute. reflexivity. }
  rewrite (Hmore _ _ Hfuel eq_refl) by done.
  eexists. split; [reflexivity|]. by repeat split.
Qed.

Lemma forecast_7601_witness :
  ∃ pts, (forecast 3 od_ply_lpd pricing_7601 demand_matrix_7601).1
         = Ok (RetForecast pts)
         ∧ length pts = 8%nat
         ∧ head pts = Some (mkPoint (-7) 5 150)
         ∧ last pts = Some (mkPoint 0 21 770).
Proof.
  apply (forecast_7601 od_ply_lpd 3).
  - vm_compute. reflexivity.
  - lia.
Defined.

(** ** [OD.forecast]: nothing is driven below zero *)

Lemma for_in_preserves {A S} (P : Env → Prop) (body : S → A → M S) l :
  (∀ s x env, P env → P (body s x env).2) →
  ∀ s env, P env → P (for_in body l s env).2.
Proof.
  intros Hbody. induction l as [|x l IH]; intros s env HP; cbn [for_in].
  - done.
  - rewrite bind_run. specialize (Hbody s x env HP).
    destruct (body s x env) as [[s'| |] env']; cbn in *; auto.
Qed.

Lemma nonneg_set_pricing env price n :
  nonneg env → 0 ≤ n →
  nonneg (mkEnv (<[price := n]> (env_pricing env)) (env_demand env)).
Proof.
  intros [Hp Hd] Hn. split; cbn; [|done].
  intros price' n' [[_ <-]|[_ Hl]]%lookup_insert_Some; [done|by eapply Hp].
Qed.

Lemma nonneg_set_demand env day row price d :
  nonneg env → env_demand env !! day = Some row → 0 ≤ d →
  nonneg (mkEnv (env_pricing env)
                (<[day := <[price := d]> row]> (env_demand env))).
Proof.
  intros [Hp Hd] Hrow Hn. split; cbn; [done|].
  intros day' row' price' d' [[_ <-]|[_ Hl]]%lookup_insert_Some;
    [|by eapply Hd].
  intros [[_ <-]|[_ Hl]]%lookup_insert_Some; [done|by eapply Hd].
Qed.

Lemma cascade_step_nonneg day price u upper_price env :
  nonneg env → nonneg (cascade_step day price u upper_price env).2.
Proof.
  intros Hnn. unfold cascade_step. case_decide; [|done].
  rewrite bind_run. unfold get_demand at 1.
  destruct (env_demand env !! day) as [row|] eqn:Hrow; [|done].
  destruct (row !! upper_price) as [d|] eqn:Hd; [|done].
  case_decide; [|done]. rewrite bind_run. unfold get_demand, set_demand.
  rewrite Hrow, Hd, Hrow. cbn. apply nonneg_set_demand; [done..|lia].
Qed.

Lemma sell_ticket_nonneg prices day price pt env n :
  nonneg env → env_pricing env !! price = Some n → 0 < n →
  nonneg (sell_ticket prices day price pt env).2.
Proof.
  intros Hnn Hseats Hn. unfold sell_ticket. rewrite bind_run.
  unfold decr_pricing. rewrite bind_run. unfold get_pricing, set_pricing.
  rewrite Hseats. rewrite bind_run.
  pose proof (for_in_preserves nonneg (cascade_step day price) prices
                (cascade_step_nonneg day price) tt _
                (nonneg_set_pricing env price (n - 1) Hnn ltac:(lia))) as Hc.
  destruct (for_in _ _ _ _) as [[[]| |] env']; done.
Qed.

Lemma sell_loop_nonneg fuel prices day pt price env :
  nonneg env → nonneg (sell_loop fuel prices day pt price env).2.
Proof.
  revert pt env. induction fuel as [|fuel IH]; intros pt env Hnn;
    cbn [sell_loop]; rewrite bind_run; unfold get_demand at 1;
    (destruct (env_demand env !! day) as [row|]; [|done]);
    (destruct (row !! price) as [d|]; [|done]);
    (case_decide; [|done]); rewrite bind_run; unfold get_pricing at 1;
    (destruct (env_pricing env !! price) as [n|] eqn:Hseats; [|done]);
    (case_decide; [|done]); [done|].
  rewrite bind_run.
  pose proof (sell_ticket_nonneg prices day price pt env n Hnn Hseats
                ltac:(done)) as Hsell.
  destruct (sell_ticket _ _ _ _ _) as [[pt'| |] env']; cbn in *; auto.
Qed.

Lemma day_step_nonneg fuel prices forecast day env :
  nonneg env → nonneg (day_step fuel prices forecast day env).2.
Proof.
  intros Hnn. unfold day_step. rewrite bind_run. unfold lift at 1.
  destruct (last_item forecast) as [previous| |]; [|done..].
  rewrite bind_run.
  pose proof (for_in_preserves nonneg (sell_loop fuel prices day) prices
                (λ pt price env, sell_loop_nonneg fuel prices day pt price env)
                (mkPoint day (pt_count previous) (pt_revenue previous))
                env Hnn) as Hday.
  destruct (for_in _ _ _ _) as [[pt| |] env']; done.
Qed.

Lemma forecast_from_nonneg fuel history env :
  nonneg env → nonneg (forecast_from fuel history env).2.
Proof.
  intros Hnn. rewrite forecast_from_cases.
  destruct (sorted_keys (env_demand env)) as [|first days]; [done|].
  cbn zeta. case_decide; [done|].
  match goal with
  | |- context [for_in ?body ?l ?s env] =>
      pose proof (for_in_preserves nonneg body l
                    (λ forecast day env,
                       day_step_nonneg fuel _ forecast day env) s env Hnn)
        as Hdays;
      destruct (for_in body l s env) as [[[|pt forecast]| |] env']
  end; done.
Qed.

(** C10. When [OD.forecast] returns a forecast and no seat count of
    [pricing] and no demand of [demand_matrix] was negative before the
    call, none is negative after it. *)
Theorem forecast_keeps_nonneg {Station : Type} fuel (od : OD Station)
    pricing demand_matrix pts env' :
  nonneg (mkEnv pricing demand_matrix) →
  forecast fuel od pricing demand_matrix = (Ok (RetForecast pts), env') →
  nonneg env'.
Proof.
  intros Hnn Hrun.
  pose proof (forecast_from_nonneg fuel (history od) _ Hnn) as Hpost.
  unfold forecast in Hrun. by rewrite Hrun in Hpost.
Qed.

Lemma nonneg_map_Forall pricing demand_matrix :
  map_Forall (λ _ n, 0 ≤ n) pricing →
  map_Forall (λ _ row, map_Forall (λ _ d : Z, 0 ≤ d) row) demand_matrix →
  nonneg (mkEnv pricing demand_matrix).
Proof.
  intros Hp Hd. split; cbn.
  - intros price n Hl. by apply (Hp price n).
  - intros day row price d Hrow Hl. by apply (Hd day row Hrow price d).
Qed.

Lemma forecast_keeps_nonneg_witness :
  nonneg (forecast 3 od_ply_lpd pricing_7601 demand_matrix_7601).2.
Proof.
  eapply (forecast_keeps_nonneg 3 od_ply_lpd pricing_7601 demand_matrix_7601).
  - apply nonneg_map_Forall; apply (bool_decide_unpack _); vm_compute;
      reflexivity.
  - vm_compute. reflexivity.
Defined.

Lemma history_curve_witness :
  history od_ply_lpd
  = [mkPoint (-30) 1 20; mkPoint (-25) 2 50; mkPoint (-20) 4 130]
  ∧ curve_of (od_passengers od_ply_lpd) (history od_ply_lpd)
  ∧ StronglySorted Z.le (pt_revenue <$> history od_ply_lpd).
Proof.
  destruct (history_curve od_ply_lpd) as (Hcurve & _ & Hrevenue & _).
  split; [reflexivity|]. split; [exact Hcurve|]. apply Hrevenue.
  intros p Hp. cbn in Hp.
  repeat (apply elem_of_cons in Hp as [->|Hp]; [cbn; lia|]).
  by apply elem_of_nil in Hp.
Defined.

(** ** [OD.forecast]: the simulation of the sales *)

Section Simulation.
Implicit Types (prices days tiers : list Z) (env : Env) (pt : point).

Lemma alter_Some_insert {V} (f : V → V) (m : gmap Z V) k v :
  m !! k = Some v → alter f k m = <[k := f v]> m.
Proof.
  intros Hk. apply map_eq. intros k'. destruct (decide (k = k')) as [<-|].
  - by rewrite lookup_alter_eq, lookup_insert_eq, Hk.
  - by rewrite lookup_alter_ne, lookup_insert_ne.
Qed.

Lemma seats_Some env price n :
  env_pricing env !! price = Some n → seats env price = n.
Proof. unfold seats. by intros ->. Qed.

Lemma demand_Some env day row price d :
  env_demand env !! day = Some row → row !! price = Some d →
  demand env day price = d.
Proof. unfold demand. intros -> Hd. cbn. by rewrite Hd. Qed.

Lemma cascade_lookup_is_Some pricing price row tier :
  is_Some (cascade pricing price row !! tier) ↔ is_Some (row !! tier).
Proof.
  unfold cascade. rewrite map_lookup_imap.
  destruct (row !! tier); cbn; [|done]. split; eauto.
Qed.

Lemma sale_ready prices days fuel day price env :
  ready prices days fuel env → ready prices days fuel (sale day price env).
Proof.
  intros [Hp Hr Hf]. split; cbn.
  - intros p. rewrite Hp. by rewrite lookup_alter_is_Some.
  - intros d Hd. destruct (Hr d Hd) as (row & Hrow & Hall).
    destruct (decide (day = d)) as [->|Hne].
    + exists (cascade (env_pricing env) price row).
      rewrite lookup_alter_eq, Hrow. split; [done|].
      intros p Hin. apply cascade_lookup_is_Some. by apply Hall.
    + exists row. by rewrite lookup_alter_ne.
  - intros p. specialize (Hf p). unfold seats in *. cbn.
    destruct (decide (price = p)) as [->|Hne].
    + rewrite lookup_alter_eq. destruct (env_pricing env !! p); cbn in *; lia.
    + by rewrite lookup_alter_ne.
Qed.

Lemma tier_sales_ready prices days fuel day price state final :
  tier_sales day price state final →
  ready prices days fuel state.2 → ready prices days fuel final.2.
Proof.
  induction 1 as [|pt env final Hd Hs Hrest IH]; [done|].
  cbn in *. intros Hready. by apply IH, sale_ready.
Qed.

Lemma tier_sales_day day price state final :
  tier_sales day price state final →
  pt_day state.1 = day → pt_day final.1 = day.
Proof. induction 1 as [|pt env final Hd Hs Hrest IH]; [done|]. auto. Qed.

Lemma day_sales_ready prices days fuel day tiers state final :
  day_sales day tiers state final →
  ready prices days fuel state.2 → ready prices days fuel final.2.
Proof.
  induction 1 as [|price tiers s1 s2 s3 Htier Hrest IH]; [done|].
  intros Hready. by eapply IH, tier_sales_ready.
Qed.

Lemma day_sales_day day tiers state final :
  day_sales day tiers state final →
  pt_day state.1 = day → pt_day final.1 = day.
Proof.
  induction 1 as [|price tiers s1 s2 s3 Htier Hrest IH]; [done|].
  intros Hday. by eapply IH, tier_sales_day.
Qed.

(** The loop over [upper_price] is the cascade on the row of the day. *)
Lemma cascade_run day price pricing tiers :
  NoDup tiers →
  ∀ demand_matrix row,
    demand_matrix !! day = Some row →
    (∀ tier, tier ∈ tiers → is_Some (row !! tier)) →
    for_in (cascade_step day price) tiers tt (mkEnv pricing demand_matrix)
    = (Ok tt,
       mkEnv pricing
         (<[day := map_imap (λ tier d,
               Some (if decide (tier ∈ tiers ∧ price ≤ tier ∧ 0 < d)
                     then d - 1 else d)) row]> demand_matrix)).
Proof.
  induction 1 as [|tier tiers Hnotin Hnd IH]; intros demand_matrix row Hrow Hall.
  - cbn. do 2 f_equal. symmetry. apply insert_id. rewrite Hrow. f_equal.
    apply map_eq. intros k. rewrite map_lookup_imap.
    destruct (row !! k) as [d|]; cbn; [|done].
    rewrite decide_False; [done|]. by intros [?%elem_of_nil _].
  - cbn [for_in]. rewrite bind_run.
    destruct (Hall tier) as [d Hd]; [left|].
    assert (∀ row' : gmap Z Z,
      (∀ k, row' !! k
            = if decide (k = tier)
              then Some (if decide (price ≤ tier ∧ 0 < d) then d - 1 else d)
              else row !! k) →
      map_imap (λ t e, Some (if decide (t ∈ tiers ∧ price ≤ t ∧ 0 < e)
                             then e - 1 else e)) row'
      = map_imap (λ t e, Some (if decide (t ∈ tier :: tiers ∧ price ≤ t ∧ 0 < e)
                               then e - 1 else e)) row) as Hrows.
    { intros row' Hrow'. apply map_eq. intros k.
      rewrite !map_lookup_imap, Hrow'.
      destruct (decide (k = tier)) as [->|Hk].
      - rewrite Hd. cbn. f_equal.
        rewrite (decide_False (P := tier ∈ tiers ∧ _)) by (by intros [? _]).
        apply decide_ext. rewrite elem_of_cons. tauto.
      - destruct (row !! k); cbn; [|done]. f_equal.
        apply decide_ext. rewrite elem_of_cons. tauto. }
    unfold cascade_step at 1. destruct (decide (price ≤ tier)) as [Hle|Hle].
    + rewrite bind_run. unfold get_demand at 1. cbn [env_demand].
      rewrite Hrow, Hd. destruct (decide (0 < d)) as [Hpos|Hpos].
      * rewrite bind_run. unfold get_demand, set_demand.
        cbn [env_demand env_pricing]. rewrite Hrow, Hd.
        cbn [env_demand env_pricing]. rewrite Hrow.
        rewrite (IH _ (<[tier := d - 1]> row)).
        -- rewrite insert_insert_eq. do 3 f_equal. apply Hrows.
           intros k. rewrite lookup_insert.
           rewrite (decide_True (P := price ≤ tier ∧ 0 < d)) by done.
           destruct (decide (tier = k)) as [<-|];
             [by rewrite decide_True|by rewrite decide_False].
        -- by rewrite lookup_insert_eq.
        -- intros t Ht. rewrite lookup_insert_is_Some'. right.
           apply Hall. by right.
      * cbn [mret M_ret].
        rewrite (IH _ row Hrow) by (intros t Ht; apply Hall; by right).
        do 3 f_equal. apply Hrows. intros k.
        rewrite (decide_False (P := price ≤ tier ∧ 0 < d)) by (by intros [_ ?]).
        by destruct (decide (k = tier)) as [->|].
    + cbn [mret M_ret].
      rewrite (IH _ row Hrow) by (intros t Ht; apply Hall; by right).
      do 3 f_equal. apply Hrows. intros k.
      rewrite (decide_False (P := price ≤ tier ∧ 0 < d)) by (by intros [? _]).
      by destruct (decide (k = tier)) as [->|].
Qed.

Lemma sell_ticket_run prices days fuel day price pt env :
  NoDup prices → ready prices days fuel env →
  day ∈ days → price ∈ prices →
  sell_ticket prices day price pt env
  = (Ok (mkPoint day (pt_count pt + 1) (pt_revenue pt + price)),
     sale day price env).
Proof.
  intros Hnd [Hp Hr Hf] Hday Hprice. destruct env as [pricing demand_matrix].
  cbn in *. destruct (proj1 (Hp price) Hprice) as [n Hn].
  destruct (Hr day Hday) as (row & Hrow & Hall).
  unfold sell_ticket. rewrite bind_run. unfold decr_pricing.
  rewrite bind_run. unfold get_pricing, set_pricing. cbn [env_pricing env_demand].
  rewrite Hn. rewrite bind_run.
  rewrite (cascade_run day price _ prices Hnd demand_matrix row Hrow Hall).
  cbn. unfold sale. cbn [env_pricing env_demand].
  rewrite (alter_Some_insert _ pricing price n Hn).
  rewrite (alter_Some_insert _ demand_matrix day row Hrow).
  do 4 f_equal. unfold cascade. apply map_eq. intros k.
  rewrite !map_lookup_imap. destruct (row !! k); cbn; [|done]. f_equal.
  apply decide_ext. by rewrite Hp.
Qed.

Lemma get_demand_ready prices days fuel day price env :
  ready prices days fuel env → day ∈ days → price ∈ prices →
  get_demand day price env = (Ok (demand env day price), env).
Proof.
  intros [_ Hr _] Hday Hprice. destruct (Hr day Hday) as (row & Hrow & Hall).
  destruct (Hall price Hprice) as [d Hd]. unfold get_demand.
  by rewrite Hrow, Hd, (demand_Some env day row price d).
Qed.

Lemma get_pricing_ready prices days fuel price env :
  ready prices days fuel env → price ∈ prices →
  get_pricing price env = (Ok (seats env price), env).
Proof.
  intros [Hp _ _] Hprice. destruct (proj1 (Hp price) Hprice) as [n Hn].
  unfold get_pricing. by rewrite Hn, (seats_Some env price n).
Qed.

Lemma seats_sale day price env :
  seats (sale day price env) price ≤ seats env price - 1
  ∨ env_pricing env !! price = None.
Proof.
  unfold seats, sale. cbn. rewrite lookup_alter_eq.
  destruct (env_pricing env !! price); cbn; [left; lia|by right].
Qed.

(** The [while] loop of a tier ends within as many passes as the tier
    has seats, and is the run of sales of the tier. *)
Lemma sell_loop_run n prices days fuel day price :
  NoDup prices → day ∈ days → price ∈ prices →
  ∀ pt env,
    ready prices days fuel env → seats env price ≤ Z.of_nat n →
    ∃ final, sell_loop n prices day pt price env = (Ok final.1, final.2)
             ∧ tier_sales day price (pt, env) final.
Proof.
  intros Hnd Hday Hprice.
  induction n as [|n IH]; intros pt env Hready Hseats; cbn [sell_loop];
    rewrite bind_run, (get_demand_ready prices days fuel) by done;
    (destruct (decide (0 < demand env day price)) as [Hd|Hd];
       [|exists (pt, env); split; [done|apply tier_done; tauto]]);
    rewrite bind_run, (get_pricing_ready prices days fuel) by done;
    (destruct (decide (0 < seats env price)) as [Hs|Hs];
       [|exists (pt, env); split; [done|apply tier_done; tauto]]);
    [lia|].
  rewrite bind_run, (sell_ticket_run prices days fuel) by done.
  destruct (IH (mkPoint day (pt_count pt + 1) (pt_revenue pt + price))
               (sale day price env)) as (final & Hrun & Hsales).
  - by apply sale_ready.
  - destruct (seats_sale day price env) as [?|Hnone]; [lia|].
    destruct Hready as [Hp _ _]. apply Hp in Hprice as [? Hsome].
    by rewrite Hsome in Hnone.
  - exists final. split; [done|]. by apply tier_sale.
Qed.

(** The loop over the prices of a day. *)
Lemma tiers_run prices days fuel day tiers :
  NoDup prices → day ∈ days → (∀ price, price ∈ tiers → price ∈ prices) →
  ∀ pt env,
    ready prices days fuel env →
    ∃ final,
      for_in (sell_loop fuel prices day) tiers pt env = (Ok final.1, final.2)
      ∧ day_sales day tiers (pt, env) final.
Proof.
  intros Hnd Hday. induction tiers as [|price tiers IH];
    intros Hsub pt env Hready; cbn [for_in].
  - exists (pt, env). split; [done|constructor].
  - destruct (sell_loop_run fuel prices days fuel day price Hnd Hday
                (Hsub price (list_elem_of_here _ _)) pt env Hready
                (ready_fuel _ _ _ _ Hready price))
      as ([pt1 env1] & Hrun & Hsales).
    rewrite bind_run, Hrun. cbn [fst snd].
    destruct (IH (λ p Hp, Hsub p (list_elem_of_further _ _ _ Hp)) pt1 env1)
      as (final & Hrest & Hday_sales).
    { by apply (tier_sales_ready _ _ _ _ _ _ _ Hsales). }
    exists final. split; [done|]. by econstructor.
Qed.

(** The body of the loop over the days. *)
Lemma day_step_run prices days fuel day forecast previous env :
  NoDup prices → day ∈ days →
  last forecast = Some previous → ready prices days fuel env →
  ∃ final,
    day_step fuel prices forecast day env
    = (Ok (forecast ++ [final.1]), final.2)
    ∧ day_sales day prices
        (mkPoint day (pt_count previous) (pt_revenue previous), env) final.
Proof.
  intros Hnd Hday Hlast Hready. unfold day_step. rewrite bind_run.
  unfold lift at 1, last_item. rewrite Hlast.
  destruct (tiers_run prices days fuel day prices Hnd Hday (λ p Hp, Hp)
              (mkPoint day (pt_count previous) (pt_revenue previous))
              env Hready) as (final & Hrun & Hsales).
  rewrite bind_run, Hrun. by exists final.
Qed.

(** The loop over the days. *)
Lemma days_run prices days fuel ds :
  NoDup prices → (∀ day, day ∈ ds → day ∈ days) →
  ∀ forecast previous env,
    last forecast = Some previous → ready prices days fuel env →
    ∃ pts env',
      for_in (day_step fuel prices) ds forecast env
      = (Ok (forecast ++ pts), env')
      ∧ forecast_sales prices ds
          (pt_count previous, pt_revenue previous, env) pts env'
      ∧ pt_day <$> pts = ds.
Proof.
  intros Hnd. induction ds as [|day ds IH];
    intros Hsub forecast previous env Hlast Hready; cbn [for_in].
  - exists [], env. rewrite app_nil_r. split; [done|]. split; [constructor|done].
  - destruct (day_step_run prices days fuel day forecast previous env Hnd
                (Hsub day (list_elem_of_here _ _)) Hlast Hready)
      as ([pt env1] & Hstep & Hsales).
    rewrite bind_run, Hstep. cbn [fst snd].
    destruct (IH (λ d Hd, Hsub d (list_elem_of_further _ _ _ Hd))
                (forecast ++ [pt]) pt env1) as (pts & env2 & Hrest & Hfs & Hds).
    { apply last_snoc. }
    { by apply (day_sales_ready _ _ _ _ _ _ _ Hsales). }
    exists (pt :: pts), env2. rewrite Hrest, <- (assoc_L (++)).
    split; [done|]. split; [by econstructor|].
    cbn. rewrite Hds. f_equal.
    by apply (day_sales_day _ _ _ _ Hsales).
Qed.

Lemma seats_bounded (pricing : gmap Z Z) :
  ∃ bound : Z, ∀ price n, pricing !! price = Some n → n ≤ bound.
Proof.
  induction pricing as [|price n pricing Hfresh IH] using map_ind.
  - exists 0. intros price n. by rewrite lookup_empty.
  - destruct IH as [bound Hbound]. exists (Z.max n bound).
    intros price' n' [[_ <-]|[_ Hl]]%lookup_insert_Some; [lia|].
    specialize (Hbound _ _ Hl). lia.
Qed.

Lemma ready_start pricing demand_matrix fuel bound :
  rows_complete pricing demand_matrix →
  (∀ price n, pricing !! price = Some n → n ≤ bound) →
  (Z.to_nat bound ≤ fuel)%nat →
  ready (sorted_keys pricing) (sorted_keys demand_matrix) fuel
    (mkEnv pricing demand_matrix).
Proof.
  intros Hrows Hbound Hfuel. split; cbn.
  - apply sorted_keys_elem.
  - intros day [row Hrow]%sorted_keys_elem. exists row. split; [done|].
    intros price Hprice%sorted_keys_elem. by eapply Hrows.
  - intros price. unfold seats. cbn.
    destruct (pricing !! price) as [n|] eqn:Hn; cbn; [|lia].
    specialize (Hbound _ _ Hn). lia.
Qed.

End Simulation.

(** C1. When every row of the demand matrix has an entry for every price
    of [pricing] and the demand matrix does not start before the last point
    of the history, [OD.forecast] returns, with enough fuel for its [while]
    loops, the simulation of the sales: the days of the demand matrix in
    ascending order, in each day the tiers in ascending price order, in each
    tier one sale after the other while the tier has demand and seats left,
    every sale adding one to the cumulative count and the price to the
    cumulative revenue, taking one seat of the tier and one unit of demand
    of every tier at or above the price that has demand left; the forecast
    has one point per day of the demand matrix, in ascending order, and not
    the point it starts from. *)
Theorem forecast_simulates {Station : Type} (od : OD Station)
    pricing demand_matrix :
  rows_complete pricing demand_matrix →
  up_to_date (history od) demand_matrix →
  ∃ days prices pts env',
    ascending_keys demand_matrix days
    ∧ ascending_keys pricing prices
    ∧ forecast_sales prices days
        (carried (history od), mkEnv pricing demand_matrix) pts env'
    ∧ pt_day <$> pts = days
    ∧ ∃ n, ∀ fuel, (n ≤ fuel)%nat →
        forecast fuel od pricing demand_matrix = (Ok (RetForecast pts), env').
Proof.
  intros Hrows (first & Hfirst & Hfresh).
  destruct (seats_bounded pricing) as [bound Hbound].
  set (seed := match last (history od) with
               | Some old => old
               | None => mkPoint (first - 1) 0 0
               end).
  assert (carried (history od) = (pt_count seed, pt_revenue seed)) as Hcarried.
  { unfold carried, seed. by destruct (last (history od)). }
  assert (NoDup (sorted_keys pricing)) as Hnodup.
  { unfold sorted_keys. rewrite sorted_by_Permutation.
    apply NoDup_fst_map_to_list. }
  destruct (days_run (sorted_keys pricing) (sorted_keys demand_matrix)
              (Z.to_nat bound) (sorted_keys demand_matrix) Hnodup
              (λ d Hd, Hd) [seed] seed (mkEnv pricing demand_matrix) eq_refl
              (ready_start pricing demand_matrix _ bound Hrows Hbound
                 (le_n _))) as (pts & env' & Hrun & Hsales & Hdays).
  exists (sorted_keys demand_matrix), (sorted_keys pricing), pts, env'.
  split; [apply sorted_keys_ascending|]. split; [apply sorted_keys_ascending|].
  rewrite Hcarried. split; [done|]. split; [done|].
  exists (Z.to_nat bound). intros fuel Hfuel. unfold forecast.
  apply (forecast_from_more_fuel (Z.to_nat bound)); [done| |done].
  rewrite forecast_from_cases. cbn [env_demand env_pricing].
  apply head_sorted_keys in Hfirst.
  destruct (sorted_keys demand_matrix) as [|first' ds] eqn:Hkeys; [done|].
  cbn in Hfirst. injection Hfirst as ->. cbn zeta. fold seed.
  rewrite decide_False.
  - by rewrite Hrun.
  - unfold seed. destruct (last (history od)) as [old|] eqn:Hlast; cbn; [|lia].
    specialize (Hfresh old eq_refl). lia.
Qed.

(** The simulation of the sales is a function of where it starts. *)
Lemma tier_sales_det day price state final1 final2 :
  tier_sales day price state final1 → tier_sales day price state final2 →
  final1 = final2.
Proof.
  intros H1. revert final2.
  induction H1 as [pt env Hstop|pt env final Hd Hs Hrest IH];
    intros final2 H2; inversion H2; subst; try tauto. by apply IH.
Qed.

Lemma day_sales_det day tiers state final1 final2 :
  day_sales day tiers state final1 → day_sales day tiers state final2 →
  final1 = final2.
Proof.
  intros H1. revert final2.
  induction H1 as [|price tiers s1 s2 s3 Htier Hrest IH];
    intros final2 H2; inversion H2; subst; [done|].
  apply IH. by rewrite (tier_sales_det _ _ _ _ _ Htier ltac:(eassumption)).
Qed.

Lemma forecast_sales_det prices days start pts1 env1 pts2 env2 :
  forecast_sales prices days start pts1 env1 →
  forecast_sales prices days start pts2 env2 →
  pts1 = pts2 ∧ env1 = env2.
Proof.
  intros H1. revert pts2 env2.
  induction H1 as [|day days count revenue env pt env' pts env'' Hday Hrest IH];
    intros pts2 env2 H2; inversion H2; subst; [done|].
  match goal with
  | H : day_sales _ _ _ _ |- _ =>
      pose proof (day_sales_det _ _ _ _ _ Hday H) as [= <- <-]
  end.
  by destruct (IH _ _ ltac:(eassumption)) as [-> ->].
Qed.

Lemma rows_complete_map_Forall pricing (demand_matrix : gmap Z (gmap Z Z)) :
  map_Forall (λ _ row,
      map_Forall (λ price (_ : Z), is_Some (row !! price)) pricing)
    demand_matrix →
  rows_complete pricing demand_matrix.
Proof.
  intros Hall day row price Hrow [n Hn]. by apply (Hall day row Hrow price n).
Qed.

Lemma earliest_map_Forall (demand_matrix : gmap Z (gmap Z Z)) first :
  is_Some (demand_matrix !! first) →
  map_Forall (λ day _, first ≤ day) demand_matrix →
  earliest demand_matrix first.
Proof.
  intros Hfirst Hall. split; [done|]. intros day [row Hrow].
  by apply (Hall day row).
Qed.

Lemma earliest_7601 : earliest demand_matrix_7601 (-7).
Proof.
  apply earliest_map_Forall.
  - apply (bool_decide_unpack _). vm_compute. reflexivity.
  - apply (bool_decide_unpack _). vm_compute. reflexivity.
Defined.

Lemma forecast_simulates_witness :
  ∃ days prices pts env',
    ascending_keys demand_matrix_7601 days
    ∧ ascending_keys pricing_7601 prices
    ∧ forecast_sales prices days
        (carried (history od_ply_lpd), mkEnv pricing_7601 demand_matrix_7601)
        pts env'
    ∧ pt_day <$> pts = days
    ∧ ∃ n, ∀ fuel, (n ≤ fuel)%nat →
        forecast fuel od_ply_lpd pricing_7601 demand_matrix_7601
        = (Ok (RetForecast pts), env').
Proof.
  apply (forecast_simulates od_ply_lpd pricing_7601 demand_matrix_7601).
  - apply rows_complete_map_Forall. apply (bool_decide_unpack _).
    vm_compute. reflexivity.
  - exists (-7). split; [apply earliest_7601|].
    intros old [= <-]. cbn. lia.
Defined.

Lemma forecast_stale_iff_witness :
  ∃ msg, (forecast 3 od_late pricing_7601 demand_matrix_7601).1
         = Ok (RetError msg).
Proof.
  apply (forecast_stale_iff 3 od_late pricing_7601 demand_matrix_7601).
  exists (-7), (mkPoint (-5) 1 50).
  split; [apply earliest_7601|]. split; [reflexivity|cbn; lia].
Defined.

(** The manifest of the program, loaded into the service. *)
Lemma manifest_7601 :
  ods (load_passenger_manifest service_7601 manifest)
  = [od_ply_lpd; mkOD ply msc [mkPassenger ply msc (-10) 50]; mkOD lpd msc []].
Proof. reflexivity. Qed.

(** ** [OD.legs] on a loaded itinerary: where it returns and where not *)

Section OdLegs.
Context {Station : Type} `{EqDecision Station}.
Implicit Types (stops before mid after rest : list Station).
Implicit Types (o d x y station : Station) (ls acc : list (Leg Station)).

Lemma for_each_cons {A S} (body : S → A → outcome S) (item : A)
    (items : list A) (state : S) :
  for_each body (item :: items) state
  = match body state item with
    | Ok state' => for_each body items state'
    | Raise e => Raise e
    | OutOfFuel => OutOfFuel
    end.
Proof. reflexivity. Qed.

Lemma snoc_app before x rest : before ++ x :: rest = (before ++ [x]) ++ rest.
Proof. by rewrite <- (assoc_L (++)). Qed.

Lemma consecutive_legs_app before x after :
  consecutive_legs (before ++ x :: after)
  = consecutive_legs (before ++ [x]) ++ consecutive_legs (x :: after).
Proof.
  induction before as [|a [|b before] IH]; [done..|].
  cbn [app] in *. rewrite !consecutive_legs_cons, IH. done.
Qed.

Lemma legs_from_not_origin ls station :
  station ∉ origins ls → legs_from ls station = [].
Proof.
  intros Hnot. unfold legs_from.
  destruct (filter _ ls) as [|leg l] eqn:Hf; [done|].
  assert (leg ∈ filter (λ leg, station = leg_origin leg) ls) as Hin
    by (rewrite Hf; left).
  apply list_elem_of_filter in Hin as [-> Hin].
  destruct Hnot. by apply list_elem_of_fmap_2.
Qed.

Lemma legs_from_last before x :
  NoDup (before ++ [x]) →
  legs_from (consecutive_legs (before ++ [x])) x = [].
Proof.
  intros Hnd. apply legs_from_not_origin.
  apply last_not_origin; [done|apply last_snoc].
Qed.

Lemma legs_from_consecutive before x y after :
  NoDup (before ++ x :: y :: after) →
  legs_from (consecutive_legs (before ++ x :: y :: after)) x = [mkLeg x y].
Proof.
  intros Hnd. rewrite consecutive_legs_app. unfold legs_from.
  rewrite filter_app. fold (legs_from (consecutive_legs (before ++ [x])) x).
  rewrite legs_from_last.
  - rewrite consecutive_legs_cons, filter_cons_True by done. cbn [app]. f_equal.
    apply legs_from_not_origin. intros Hin%origins_consecutive_elem.
    apply NoDup_app in Hnd as (_ & _ & Hnd).
    by apply NoDup_cons in Hnd as [Hx _].
  - rewrite (snoc_app before x (y :: after)) in Hnd.
    by apply NoDup_app in Hnd as (Hnd & _ & _).
Qed.

(** Before the end of the last leg the pass appends nothing. *)
Lemma legs_pass_skip ls before rest acc l :
  last acc = Some l → leg_destination l ∉ before →
  for_each (legs_step ls) (before ++ rest) acc
  = for_each (legs_step ls) rest acc.
Proof.
  intros Hlast. induction before as [|a before IH]; intros Hnot; [done|].
  cbn [app for_each]. unfold legs_step at 1. rewrite Hlast.
  rewrite decide_False by (intros ->; apply Hnot; left).
  apply IH. intros Hin. apply Hnot. by right.
Qed.

(** From the end of the last leg the pass goes on to the end of the
    itinerary, whatever the destination of the OD. *)
Lemma legs_pass_follow after :
  ∀ before x acc l,
    NoDup (before ++ x :: after) →
    last acc = Some l → leg_destination l = x →
    for_each (legs_step (consecutive_legs (before ++ x :: after)))
      (x :: after) acc
    = Ok (acc ++ consecutive_legs (x :: after)).
Proof.
  induction after as [|y after IH]; intros before x acc l Hnd Hlast Hx;
    rewrite for_each_cons; unfold legs_step at 1; rewrite Hlast, Hx;
    rewrite decide_True by done.
  - rewrite legs_from_last by done. done.
  - rewrite legs_from_consecutive by done.
    rewrite (snoc_app before x (y :: after)) in Hnd |- *.
    rewrite (IH (before ++ [x]) y (acc ++ [mkLeg x y]) (mkLeg x y) Hnd
               (last_snoc _ _) eq_refl).
    by rewrite consecutive_legs_cons, <- (assoc_L (++)).
Qed.

Lemma legs_pass_from before x after acc l :
  NoDup (before ++ x :: after) →
  last acc = Some l → leg_destination l = x →
  for_each (legs_step (consecutive_legs (before ++ x :: after)))
    (before ++ x :: after) acc
  = Ok (acc ++ consecutive_legs (x :: after)).
Proof.
  intros Hnd Hlast Hx. rewrite (legs_pass_skip _ before _ acc l Hlast).
  - by eapply legs_pass_follow.
  - rewrite Hx. apply NoDup_app in Hnd as (_ & Hnot & _).
    intros Hin. apply (Hnot x Hin). left.
Qed.

Lemma first_legs_NoDup ls o stops :
  NoDup stops → o ∈ stops → first_legs ls o stops = legs_from ls o.
Proof.
  unfold first_legs. intros Hnd Hin.
  assert (∀ acc,
    foldl (λ acc station,
             if decide (station = o) then acc ++ legs_from ls station else acc)
          acc stops
    = acc ++ (if decide (o ∈ stops) then legs_from ls o else [])) as Hgen.
  { clear Hin. induction Hnd as [|a stops Ha Hnd IH]; intros acc; cbn [foldl].
    - rewrite decide_False by (by intros ?%elem_of_nil). by rewrite app_nil_r.
    - rewrite IH. destruct (decide (a = o)) as [->|Hne].
      + rewrite decide_False by done. rewrite decide_True by left.
        by rewrite app_nil_r.
      + f_equal. apply decide_ext. rewrite elem_of_cons.
        split; [auto|by intros [->|?]]. }
  rewrite Hgen. by rewrite decide_True.
Qed.

Lemma last_consecutive_legs before x y :
  last (consecutive_legs (before ++ [x; y])) = Some (mkLeg x y).
Proof.
  rewrite consecutive_legs_app. cbn. apply last_snoc.
Qed.

Lemma consecutive_legs_last_destination o rest l :
  last (consecutive_legs (o :: rest)) = Some l →
  last (o :: rest) = Some (leg_destination l).
Proof.
  revert o. induction rest as [|y rest IH]; intros o; [done|].
  rewrite consecutive_legs_cons, last_cons_cons.
  destruct rest as [|z rest]; [by intros [= <-]|].
  rewrite consecutive_legs_cons, last_cons_cons. rewrite <- consecutive_legs_cons.
  apply IH.
Qed.

(** The OD from [o] to [d] on the stops [before ++ o :: mid ++ d :: after]:
    [OD.legs] returns the legs from [o] to [d] when [d] is the stop next to
    [o] or the last stop of the itinerary. *)
Lemma od_legs_span (svc : Service Station) before o mid d after passengers fuel :
  NoDup (before ++ o :: mid ++ d :: after) →
  mid = [] ∨ after = [] →
  od_legs (S fuel) (load_itinerary svc (before ++ o :: mid ++ d :: after))
    (mkOD o d passengers)
  = Ok (consecutive_legs (o :: mid ++ [d])).
Proof.
  intros Hnd Hcase. unfold od_legs, itinerary, load_itinerary. cbn [legs].
  rewrite load_legs_consecutive, itinerary_consecutive;
    [|done|rewrite length_app; cbn; rewrite length_app; cbn; lia].
  cbn [mbind outcome_bind od_origin od_destination].
  rewrite first_legs_NoDup; [|done|rewrite elem_of_app; right; left].
  destruct mid as [|y mid].
  - cbn [app] in *. rewrite legs_from_consecutive by done.
    cbn [legs_loop last leg_destination]. by rewrite decide_False by (by intros []).
  - destruct Hcase as [?| ->]; [done|]. cbn [app] in *.
    rewrite legs_from_consecutive by done.
    assert (y ≠ d) as Hyd.
    { intros ->. apply NoDup_app in Hnd as (_ & _ & Hnd).
      apply NoDup_cons in Hnd as [_ Hnd]. apply NoDup_cons in Hnd as [Hd _].
      apply Hd. rewrite elem_of_app. right. left. }
    erewrite legs_loop_pass; [|done|done|].
    2:{ rewrite (snoc_app before o (y :: mid ++ [d])) in Hnd |- *.
        apply (legs_pass_from _ _ _ _ (mkLeg o y)); [exact Hnd|done..]. }
    cbn [app]. rewrite <- consecutive_legs_cons.
    destruct (last (consecutive_legs (o :: y :: mid ++ [d]))) as [l|] eqn:Hlast.
    2:{ apply last_None in Hlast. by rewrite consecutive_legs_cons in Hlast. }
    pose proof (consecutive_legs_last_destination _ _ _ Hlast) as Hd.
    rewrite (last_snoc d (o :: y :: mid) : last (o :: y :: mid ++ [d]) = _) in Hd.
    injection Hd as Hd.
    destruct fuel; cbn [legs_loop]; rewrite Hlast;
      by rewrite decide_False by (by intros []).
Qed.

(** In every other case, the OD spans more than one leg and does not end
    at the last stop, [OD.legs] does not return. *)
Lemma od_legs_diverges (svc : Service Station) before o y mid d z after
    passengers fuel :
  NoDup (before ++ o :: (y :: mid) ++ d :: z :: after) →
  od_legs fuel (load_itinerary svc (before ++ o :: (y :: mid) ++ d :: z :: after))
    (mkOD o d passengers)
  = OutOfFuel.
Proof.
  intros Hnd. unfold od_legs. destruct fuel as [|fuel].
  { unfold itinerary, itinerary_of_legs, load_itinerary. cbn [legs].
    rewrite load_legs_consecutive.
    destruct before as [|b [|b' before]]; cbn [app] in *;
      rewrite service_origins_consecutive by done;
      cbn [itinerary_loop last]; rewrite consecutive_legs_cons;
      by rewrite decide_True by left. }
  unfold itinerary, load_itinerary. cbn [legs].
  rewrite load_legs_consecutive, itinerary_consecutive;
    [|done|rewrite length_app; cbn; rewrite length_app; cbn; lia].
  cbn [mbind outcome_bind od_origin od_destination].
  rewrite first_legs_NoDup; [|done|rewrite elem_of_app; right; left].
  cbn [app] in *. rewrite legs_from_consecutive by done.
  assert (NoDup (o :: y :: mid ++ d :: z :: after)) as Hnd'
    by (by apply NoDup_app in Hnd as (_ & _ & ?)).
  assert (y ≠ d) as Hyd.
  { intros ->. apply NoDup_cons in Hnd' as [_ Hnd'].
    apply NoDup_cons in Hnd' as [Hd _].
    apply Hd. rewrite elem_of_app. right. left. }
  erewrite legs_loop_pass; [|done|done|].
  2:{ rewrite (snoc_app before o (y :: mid ++ d :: z :: after)) in Hnd |- *.
      apply (legs_pass_from _ _ _ _ (mkLeg o y)); [exact Hnd|done..]. }
  cbn [app]. rewrite <- consecutive_legs_cons.
  destruct (last (consecutive_legs (o :: y :: mid ++ d :: z :: after)))
    as [l|] eqn:Hlast.
  2:{ apply last_None in Hlast. by rewrite consecutive_legs_cons in Hlast. }
  pose proof (consecutive_legs_last_destination _ _ _ Hlast) as Hend.
  assert (leg_destination l ≠ d) as Hld.
  { intros Heq. rewrite Heq in Hend.
    rewrite (snoc_app (o :: y :: mid) d (z :: after) :
               o :: y :: mid ++ d :: z :: after = _) in Hend, Hnd'.
    rewrite last_app in Hend.
    destruct (last (z :: after)) as [e|] eqn:He;
      [|by apply last_None in He].
    injection Hend as ->. apply NoDup_app in Hnd' as (_ & Hnot & _).
    apply (Hnot d); [rewrite elem_of_app; right; left|].
    by apply last_Some_elem_of. }
  apply last_Some in Hend as [front Hfront].
  eapply legs_loop_stuck; [done|done|].
  rewrite Hfront in Hnd, Hlast |- *.
  rewrite (assoc_L (++) before front [leg_destination l]) in Hnd |- *.
  rewrite (legs_pass_from (before ++ front) (leg_destination l) [] _ l Hnd
             Hlast eq_refl).
  by rewrite app_nil_r.
Qed.

(** [OD.legs] on a loaded itinerary, for an OD whose origin comes before
    its destination: it returns the legs from the origin to the destination
    when the destination is the next stop or the last stop of the
    itinerary, and does not return otherwise. *)
Lemma od_legs_loaded (svc : Service Station) before o mid d after passengers
    fuel :
  NoDup (before ++ o :: mid ++ d :: after) →
  od_legs (S fuel) (load_itinerary svc (before ++ o :: mid ++ d :: after))
    (mkOD o d passengers)
  = if decide (mid = [] ∨ after = [])
    then Ok (consecutive_legs (o :: mid ++ [d]))
    else OutOfFuel.
Proof.
  intros Hnd. destruct (decide (mid = [] ∨ after = [])) as [Hcase|Hcase].
  - by apply od_legs_span.
  - destruct mid as [|y mid]; [by destruct Hcase; left|].
    destruct after as [|z after]; [by destruct Hcase; right|].
    by apply od_legs_diverges.
Qed.

End OdLegs.

(** ** [Service.load_itinerary]: the legs and the ODs it creates *)

Section LoadItinerary.
Context {Station : Type} `{EqDecision Station}.
Implicit Types (stops rest : list Station) (o d : Station).

Lemma omap_shift {B} (f : nat → option B) (l : list nat) :
  omap f (S <$> l) = omap (λ i, f (S i)) l.
Proof. induction l as [|i l IH]; [done|]. csimpl. by rewrite IH. Qed.

Lemma bind_shift {B} (f : nat → list B) (l : list nat) :
  (S <$> l) ≫= f = l ≫= λ i, f (S i).
Proof. induction l as [|i l IH]; [done|]. csimpl. by rewrite IH. Qed.

Lemma omap_lookup_all {A B} (g : A → B) (l : list A) :
  omap (λ j, x ← l !! j; Some (g x)) (seq 0 (length l)) = g <$> l.
Proof.
  induction l as [|a l IH]; [done|].
  cbn [length seq]. csimpl. f_equal.
  rewrite <- fmap_S_seq, omap_shift. apply IH.
Qed.

(** The ODs of a stop sequence: from the first stop to every later stop,
    then the ODs of the later stops. *)
Lemma load_ods_cons o rest :
  load_ods (o :: rest) = ((λ d, mkOD o d []) <$> rest) ++ load_ods rest.
Proof.
  unfold load_ods. destruct rest as [|d rest]; [done|].
  cbn [length Nat.sub]. rewrite Nat.sub_0_r. cbn [seq]. csimpl.
  f_equal. f_equal.
  - rewrite <- !fmap_S_seq, !omap_shift.
    apply (omap_lookup_all (λ d', mkOD o d' []) rest).
  - rewrite <- fmap_S_seq, bind_shift.
    apply list_bind_ext; [|done]. intros i.
    rewrite <- (fmap_S_seq (S i)), omap_shift. done.
Qed.

Lemma length_consecutive_legs stops :
  length (consecutive_legs stops) = (length stops - 1)%nat.
Proof.
  induction stops as [|o [|d rest] IH]; [done..|].
  rewrite consecutive_legs_cons. cbn [length] in *. lia.
Qed.

(** A service loaded with [n] stops has [n - 1] legs and [n (n - 1) / 2]
    ODs, whatever the stops. *)
Lemma load_itinerary_sizes (svc : Service Station) stops :
  length (legs (load_itinerary svc stops)) = (length stops - 1)%nat
  ∧ (2 * length (ods (load_itinerary svc stops))
     = length stops * (length stops - 1))%nat.
Proof.
  cbn [load_itinerary legs ods]. split.
  - by rewrite load_legs_consecutive, length_consecutive_legs.
  - induction stops as [|o rest IH]; [done|].
    rewrite load_ods_cons, length_app, length_fmap. cbn [length].
    revert IH. generalize (length (load_ods rest)), (length rest).
    intros m [|n] IH; cbn [Nat.sub] in *; rewrite ?Nat.sub_0_r in *; nia.
Qed.

(** Leg [i] of a loaded service goes from stop [i] to stop [i + 1]. *)
Lemma load_itinerary_leg (svc : Service Station) stops i :
  legs (load_itinerary svc stops) !! i
  = (o ← stops !! i; d ← stops !! S i; Some (mkLeg o d)).
Proof.
  cbn [load_itinerary legs]. rewrite load_legs_consecutive.
  revert i. induction stops as [|o [|d rest] IH]; intros i; [done| |].
  - destruct i as [|[|i]]; done.
  - rewrite consecutive_legs_cons. destruct i as [|i]; [done|].
    cbn [lookup list_lookup]. apply IH.
Qed.

End LoadItinerary.

(** ** [Service.load_passenger_manifest] and [Leg.passengers] *)

Section Manifest.
Context {Station : Type} `{EqDecision Station}.
Implicit Types (stops rest : list Station) (o d a b c : Station).
Implicit Types (manifest : list (Passenger Station)) (od : OD Station).

Lemma with_bookings_nil od : with_bookings [] od = od.
Proof. destruct od. unfold with_bookings. cbn. by rewrite app_nil_r. Qed.

Lemma with_bookings_cons passenger manifest od :
  with_bookings (passenger :: manifest) od
  = with_bookings manifest (add_passenger passenger od).
Proof.
  unfold with_bookings, add_passenger, bookings_for. rewrite filter_cons.
  destruct (decide (p_origin passenger = od_origin od
                    ∧ p_destination passenger = od_destination od));
    cbn; [|done].
  by rewrite <- (assoc_L (++)).
Qed.

Lemma load_passenger_manifest_fmap (svc : Service Station) manifest :
  load_passenger_manifest svc manifest
  = mkService (name svc) (departure_date svc) (legs svc)
              (with_bookings manifest <$> ods svc).
Proof.
  unfold load_passenger_manifest. f_equal.
  generalize (ods svc) as os.
  induction manifest as [|passenger manifest IH]; intros os; cbn [foldl].
  - rewrite <- (list_fmap_id os) at 1. apply list_fmap_ext.
    intros i od _. by rewrite with_bookings_nil.
  - rewrite IH, <- list_fmap_compose. apply list_fmap_ext. intros i od _.
    cbn. by rewrite with_bookings_cons.
Qed.

(** Loading a manifest keeps the ODs of the service in their order and
    gives each one, after the passengers it had, the bookings of the
    manifest for its origin and destination, in the order of the manifest;
    the name, the departure date and the legs are unchanged. *)
Lemma load_passenger_manifest_ods (svc : Service Station) manifest i :
  let loaded := load_passenger_manifest svc manifest in
  name loaded = name svc
  ∧ departure_date loaded = departure_date svc
  ∧ legs loaded = legs svc
  ∧ length (ods loaded) = length (ods svc)
  ∧ ∀ od, ods svc !! i = Some od →
      ods loaded !! i
      = Some (mkOD (od_origin od) (od_destination od)
                (od_passengers od
                 ++ filter (λ p, p_origin p = od_origin od
                                 ∧ p_destination p = od_destination od)
                           manifest)).
Proof.
  intros loaded. unfold loaded. rewrite load_passenger_manifest_fmap.
  cbn [name departure_date legs ods]. rewrite length_fmap.
  repeat split. intros od Hod. by rewrite list_lookup_fmap, Hod.
Qed.

(** A booking for an origin and a destination that are those of no OD of
    the service is dropped, without any error. *)
Lemma load_passenger_manifest_drop (svc : Service Station) before passenger
    after :
  (∀ od, od ∈ ods svc →
         ¬ (p_origin passenger = od_origin od
            ∧ p_destination passenger = od_destination od)) →
  load_passenger_manifest svc (before ++ passenger :: after)
  = load_passenger_manifest svc (before ++ after).
Proof.
  intros Hnone. rewrite !load_passenger_manifest_fmap. f_equal.
  apply list_fmap_ext. intros i od Hod%list_elem_of_lookup_2.
  unfold with_bookings, bookings_for. do 2 f_equal.
  rewrite !filter_app, filter_cons_False; [done|]. by apply Hnone.
Qed.

(** [OD.legs] looks at the legs of the service and at the origin and the
    destination of the OD only. *)
Lemma od_legs_same fuel (svc1 svc2 : Service Station) od1 od2 :
  legs svc1 = legs svc2 → od_origin od1 = od_origin od2 →
  od_destination od1 = od_destination od2 →
  od_legs fuel svc1 od1 = od_legs fuel svc2 od2.
Proof. unfold od_legs, itinerary. by intros -> -> ->. Qed.

Lemma for_each_ext {A S} (body1 body2 : S → A → outcome S) (items : list A) :
  (∀ state item, body1 state item = body2 state item) →
  ∀ state, for_each body1 items state = for_each body2 items state.
Proof.
  intros Hbody. induction items as [|item items IH]; intros state; [done|].
  rewrite !for_each_cons, Hbody. by destruct (body2 state item).
Qed.

Lemma od_legs_with_bookings fuel (svc : Service Station) manifest od :
  od_legs fuel svc (with_bookings manifest od) = od_legs fuel svc od.
Proof. by apply od_legs_same. Qed.

Lemma ods_load_itinerary (svc : Service Station) stops :
  ods (load_itinerary svc stops) = load_ods stops.
Proof. reflexivity. Qed.

(** [Leg.passengers] after a manifest is loaded. *)
Lemma leg_passengers_loaded fuel (svc : Service Station) manifest
    (self : Leg Station) :
  leg_passengers fuel (load_passenger_manifest svc manifest) self
  = for_each (λ passengers od,
                crossed ← od_legs fuel svc od;
                Ok (foldl (occupy self od) passengers crossed))
             (with_bookings manifest <$> ods svc) [].
Proof.
  unfold leg_passengers. rewrite load_passenger_manifest_fmap. cbn [ods].
  apply for_each_ext. intros passengers od.
  by rewrite (od_legs_same fuel _ svc od od).
Qed.

(** On an itinerary of four or more stops no leg ever gets its
    passengers: the second OD of the service, from the first stop to the
    third, is one on which [OD.legs] does not return. *)
Lemma leg_passengers_diverges (svc : Service Station) a b c d rest manifest
    fuel (self : Leg Station) :
  NoDup (a :: b :: c :: d :: rest) →
  leg_passengers fuel
    (load_passenger_manifest (load_itinerary svc (a :: b :: c :: d :: rest))
       manifest) self
  = OutOfFuel.
Proof.
  intros Hnd. rewrite leg_passengers_loaded, ods_load_itinerary.
  rewrite !load_ods_cons. cbn [fmap list_fmap app].
  rewrite for_each_cons, od_legs_with_bookings.
  destruct fuel as [|fuel].
  { unfold od_legs, itinerary, itinerary_of_legs, load_itinerary. cbn [legs].
    rewrite load_legs_consecutive, service_origins_consecutive by done.
    cbn [itinerary_loop last]. rewrite consecutive_legs_cons.
    by rewrite decide_True by left. }
  pose proof (λ ps, od_legs_span svc [] a [] b (c :: d :: rest) ps fuel Hnd
                      (or_introl eq_refl)) as Hfirst.
  cbn [app] in Hfirst. rewrite Hfirst.
  cbn [mbind outcome_bind]. rewrite for_each_cons, od_legs_with_bookings.
  pose proof (λ ps, od_legs_diverges svc [] a b [] c d rest ps (S fuel) Hnd)
    as Hsecond.
  cbn [app] in Hsecond. by rewrite Hsecond.
Qed.

(** On an itinerary of three stops a leg gets the bookings of the ODs that
    cross it, OD after OD, each in the order of the manifest. *)
Lemma leg_passengers_three (svc : Service Station) a b c manifest fuel :
  NoDup [a; b; c] →
  let loaded :=
    load_passenger_manifest (load_itinerary svc [a; b; c]) manifest in
  leg_passengers (S fuel) loaded (mkLeg a b)
  = Ok (bookings_for a b manifest ++ bookings_for a c manifest)
  ∧ leg_passengers (S fuel) loaded (mkLeg b c)
    = Ok (bookings_for a c manifest ++ bookings_for b c manifest).
Proof.
  intros Hnd loaded.
  assert (a ≠ b ∧ a ≠ c ∧ b ≠ c) as (Hab & Hac & Hbc).
  { apply NoDup_cons in Hnd as [Ha Hnd]. apply NoDup_cons in Hnd as [Hb _].
    split; [intros ->; apply Ha; left|].
    split; [intros ->; apply Ha; right; left|intros ->; apply Hb; left]. }
  unfold loaded. rewrite !leg_passengers_loaded, ods_load_itinerary.
  rewrite !load_ods_cons. cbn [fmap list_fmap app].
  pose proof (λ ps, od_legs_span svc [] a [] b [c] ps fuel Hnd
                      (or_introl eq_refl)) as H1.
  pose proof (λ ps, od_legs_span svc [] a [b] c [] ps fuel Hnd
                      (or_intror eq_refl)) as H2.
  pose proof (λ ps, od_legs_span svc [a] b [] c [] ps fuel Hnd
                      (or_introl eq_refl)) as H3.
  cbn [app] in H1, H2, H3.
  split;
    rewrite for_each_cons, od_legs_with_bookings, H1; cbn [mbind outcome_bind];
    rewrite for_each_cons, od_legs_with_bookings, H2; cbn [mbind outcome_bind];
    rewrite for_each_cons, od_legs_with_bookings, H3; cbn [mbind outcome_bind];
    change (load_ods []) with (@nil (OD Station));
    cbn [for_each app consecutive_legs foldl fmap list_fmap];
    unfold occupy, with_bookings;
    cbn [leg_origin leg_destination od_origin od_destination od_passengers app];
    rewrite ?(decide_True (P := a = a ∧ b = b)) by done;
    rewrite ?(decide_True (P := b = b ∧ c = c)) by done;
    rewrite ?(decide_False (P := a = b ∧ b = c)) by (by intros [? _]);
    rewrite ?(decide_False (P := b = a ∧ c = b)) by (by intros [? _]);
    done.
Qed.

End Manifest.

(** ** [OD.history]: order of the bookings, last point *)

Section HistoryOrder.
Context {Station : Type}.
Implicit Types (p : Passenger Station) (ps : list (Passenger Station)).
Implicit Types (h : list point) (pt : point).

Lemma StronglySorted_lt_NoDup (l : list Z) : StronglySorted Z.lt l → NoDup l.
Proof.
  induction 1 as [|x l Hl IH Hx]; constructor; [|done].
  intros Hin. rewrite Forall_forall in Hx. specialize (Hx x Hin). lia.
Qed.

Lemma ascending_unique (l1 l2 : list Z) :
  StronglySorted Z.lt l1 → StronglySorted Z.lt l2 →
  (∀ k, k ∈ l1 ↔ k ∈ l2) → l1 = l2.
Proof.
  intros Hs1 Hs2 Hiff.
  apply (StronglySorted_unique_strong Z.lt); [intros; lia|done..|].
  apply NoDup_Permutation; [by apply StronglySorted_lt_NoDup..|done].
Qed.




End HistoryOrder.

(** ** [OD.forecast]: what it does to the two dictionaries *)

Section Invariant.
Variable P : Env → Prop.
Hypothesis P_seat :
  ∀ env price n,
    P env → env_pricing env !! price = Some n → 0 < n →
    P (mkEnv (<[price := n - 1]> (env_pricing env)) (env_demand env)).
Hypothesis P_demand :
  ∀ env day row price d,
    P env → env_demand env !! day = Some row → row !! price = Some d →
    0 < d →
    P (mkEnv (env_pricing env)
             (<[day := <[price := d - 1]> row]> (env_demand env))).

Lemma cascade_step_inv day price u upper_price env :
  P env → P (cascade_step day price u upper_price env).2.
Proof.
  intros HP. unfold cascade_step. case_decide; [|done].
  rewrite bind_run. unfold get_demand at 1.
  destruct (env_demand env !! day) as [row|] eqn:Hrow; [|done].
  destruct (row !! upper_price) as [d|] eqn:Hd; [|done].
  case_decide; [|done]. rewrite bind_run. unfold get_demand, set_demand.
  rewrite Hrow, Hd, Hrow. cbn. by eapply P_demand.
Qed.

Lemma sell_ticket_inv prices day price pt env n :
  P env → env_pricing env !! price = Some n → 0 < n →
  P (sell_ticket prices day price pt env).2.
Proof.
  intros HP Hseats Hn. unfold sell_ticket. cbn zeta. rewrite bind_run.
  unfold decr_pricing. rewrite bind_run. unfold get_pricing, set_pricing.
  rewrite Hseats. rewrite bind_run.
  pose proof (for_in_preserves P (cascade_step day price) prices
                (cascade_step_inv day price) tt _
                (P_seat env price n HP Hseats Hn)) as Hc.
  destruct (for_in _ _ _ _) as [[[]| |] env']; done.
Qed.

Lemma sell_loop_inv fuel prices day pt price env :
  P env → P (sell_loop fuel prices day pt price env).2.
Proof.
  revert pt env. induction fuel as [|fuel IH]; intros pt env HP;
    cbn [sell_loop]; rewrite bind_run; unfold get_demand at 1;
    (destruct (env_demand env !! day) as [row|]; [|done]);
    (destruct (row !! price) as [d|]; [|done]);
    (case_decide; [|done]); rewrite bind_run; unfold get_pricing at 1;
    (destruct (env_pricing env !! price) as [n|] eqn:Hseats; [|done]);
    (case_decide; [|done]); [done|].
  rewrite bind_run.
  pose proof (sell_ticket_inv prices day price pt env n HP Hseats
                ltac:(done)) as Hsell.
  destruct (sell_ticket _ _ _ _ _) as [[pt'| |] env']; cbn in *; auto.
Qed.

Lemma tiers_inv fuel prices day tiers pt env :
  P env → P (for_in (sell_loop fuel prices day) tiers pt env).2.
Proof.
  apply for_in_preserves. intros pt' price env'. apply sell_loop_inv.
Qed.

Lemma day_step_inv fuel prices forecast day env :
  P env → P (day_step fuel prices forecast day env).2.
Proof.
  intros HP. unfold day_step. rewrite bind_run. unfold lift at 1.
  destruct (last_item forecast) as [previous| |]; [|done..].
  rewrite bind_run.
  pose proof (tiers_inv fuel prices day prices
                (mkPoint day (pt_count previous) (pt_revenue previous))
                env HP) as Hday.
  destruct (for_in _ _ _ _) as [[pt| |] env']; done.
Qed.

Lemma days_inv fuel prices days forecast env :
  P env → P (for_in (day_step fuel prices) days forecast env).2.
Proof.
  apply for_in_preserves. intros forecast' day env'. apply day_step_inv.
Qed.

Lemma forecast_from_inv fuel history env :
  P env → P (forecast_from fuel history env).2.
Proof.
  intros HP. rewrite forecast_from_cases.
  destruct (sorted_keys (env_demand env)) as [|first days]; [done|].
  cbn zeta. case_decide; [done|].
  match goal with
  | |- context [for_in (day_step fuel ?prices) ?l ?s env] =>
      pose proof (days_inv fuel prices l s env HP) as Hdays;
      destruct (for_in (day_step fuel prices) l s env)
        as [[[|pt forecast]| |] env']
  end; done.
Qed.

End Invariant.

Lemma forecast_from_consumes fuel history env :
  consumes env (forecast_from fuel history env).2.
Proof.
  apply (forecast_from_inv (consumes env)).
  - intros. by eapply consumes_seat.
  - intros. by eapply consumes_demand.
  - constructor.
Qed.

Lemma consumes_keys env env' :
  consumes env env' →
  dom (env_pricing env') = dom (env_pricing env)
  ∧ dom (env_demand env') = dom (env_demand env)
  ∧ ∀ day row row',
      env_demand env !! day = Some row → env_demand env' !! day = Some row' →
      dom row' = dom row.
Proof.
  induction 1 as [env|env env' price n _ (IHp & IHd & IHr) Hn Hpos
                 |env env' day row price d _ (IHp & IHd & IHr) Hrow Hd Hpos];
    cbn [env_pricing env_demand].
  - split; [done|]. split; [done|]. intros day row row' -> [= ->]. done.
  - split; [|done]. rewrite dom_insert_L, IHp.
    apply elem_of_dom_2 in Hn. rewrite IHp in Hn. set_solver.
  - split; [done|]. split.
    + rewrite dom_insert_L, IHd.
      apply elem_of_dom_2 in Hrow. rewrite IHd in Hrow. set_solver.
    + intros day' row0 row' Hrow0.
      intros [[<- <-]|[Hne Hrow']]%lookup_insert_Some; [|by eapply IHr].
      rewrite dom_insert_L, <- (IHr _ _ _ Hrow0 Hrow).
      apply elem_of_dom_2 in Hd. set_solver.
Qed.

Lemma consumes_values env env' :
  consumes env env' →
  (∀ price n, env_pricing env !! price = Some n →
     ∃ n', env_pricing env' !! price = Some n'
           ∧ n' ≤ n ∧ (n ≤ 0 → n' = n) ∧ (0 ≤ n → 0 ≤ n'))
  ∧ (∀ day row price d,
       env_demand env !! day = Some row → row !! price = Some d →
       ∃ row' d', env_demand env' !! day = Some row' ∧ row' !! price = Some d'
                  ∧ d' ≤ d ∧ (d ≤ 0 → d' = d) ∧ (0 ≤ d → 0 ≤ d')).
Proof.
  induction 1 as [env|env env' price n _ [IHp IHd] Hn Hpos
                 |env env' day row price d _ [IHp IHd] Hrow Hd Hpos];
    cbn [env_pricing env_demand].
  - split.
    + intros price n Hn. exists n. split; [done|lia].
    + intros day row price d Hrow Hd. exists row, d.
      split; [done|]. split; [done|]. lia.
  - split; [|done]. intros price' n0 Hn0.
    destruct (IHp price' n0 Hn0) as (n' & Hn' & Hle & Hsame & Hpos').
    destruct (decide (price = price')) as [<-|Hne].
    + exists (n - 1). rewrite lookup_insert_eq. simplify_eq.
      split; [done|]. lia.
    + exists n'. by rewrite lookup_insert_ne.
  - split; [done|]. intros day' row0 price' d0 Hrow0 Hd0.
    destruct (IHd day' row0 price' d0 Hrow0 Hd0)
      as (row' & d' & Hrow' & Hd' & Hle & Hsame & Hpos').
    destruct (decide (day = day')) as [<-|Hne].
    + simplify_eq. rewrite lookup_insert_eq.
      destruct (decide (price = price')) as [<-|Hnep].
      * exists (<[price := d - 1]> row), (d - 1).
        rewrite lookup_insert_eq. simplify_eq. split; [done|]. split; [done|]. lia.
      * exists (<[price := d - 1]> row), d'.
        by rewrite lookup_insert_ne.
    + exists row', d'. by rewrite lookup_insert_ne.
Qed.

(** Whatever the outcome of [OD.forecast], no key is added to or removed
    from [pricing], [demand_matrix] or a row of [demand_matrix]. *)
Lemma forecast_keeps_keys {Station : Type} fuel (od : OD Station)
    pricing demand_matrix :
  let env' := (forecast fuel od pricing demand_matrix).2 in
  dom (env_pricing env') = dom pricing
  ∧ dom (env_demand env') = dom demand_matrix
  ∧ ∀ day row row',
      demand_matrix !! day = Some row → env_demand env' !! day = Some row' →
      dom row' = dom row.
Proof.
  apply (consumes_keys (mkEnv pricing demand_matrix)), forecast_from_consumes.
Qed.

(** Whatever the outcome of [OD.forecast], a seat count or a demand that was
    positive is afterwards between zero and what it was, and one that was
    zero or negative is what it was. *)
Lemma forecast_only_takes {Station : Type} fuel (od : OD Station)
    pricing demand_matrix :
  let env' := (forecast fuel od pricing demand_matrix).2 in
  (∀ price n, pricing !! price = Some n →
     ∃ n', env_pricing env' !! price = Some n'
           ∧ n' ≤ n ∧ (n ≤ 0 → n' = n) ∧ (0 ≤ n → 0 ≤ n'))
  ∧ (∀ day row price d,
       demand_matrix !! day = Some row → row !! price = Some d →
       ∃ row' d', env_demand env' !! day = Some row' ∧ row' !! price = Some d'
                  ∧ d' ≤ d ∧ (d ≤ 0 → d' = d) ∧ (0 ≤ d → 0 ≤ d')).
Proof.
  apply (consumes_values (mkEnv pricing demand_matrix)), forecast_from_consumes.
Qed.

(** With an empty demand matrix [OD.forecast] fails with the [IndexError]
    of [demand_days[0]], whatever the history, and leaves [pricing] as it
    was. *)
Lemma forecast_no_demand {Station : Type} fuel (od : OD Station) pricing :
  forecast fuel od pricing ∅ = (Raise IndexError, mkEnv pricing ∅).
Proof.
  unfold forecast. rewrite forecast_from_cases. cbn [env_demand].
  unfold sorted_keys. by rewrite map_to_list_empty.
Qed.

(** ** [OD.forecast]: every forecast it returns is the simulation *)

Lemma consumes_entry env env' day price :
  consumes env env' →
  (∃ row, env_demand env' !! day = Some row ∧ is_Some (row !! price)) →
  ∃ row, env_demand env !! day = Some row ∧ is_Some (row !! price).
Proof.
  intros (_ & Hdays & Hrows)%consumes_keys (row' & Hrow' & Hprice).
  assert (day ∈ dom (env_demand env)) as [row Hrow]%elem_of_dom
    by (rewrite <- Hdays; by apply elem_of_dom_2 in Hrow').
  exists row. split; [done|].
  apply elem_of_dom. rewrite <- (Hrows day row row' Hrow Hrow').
  by apply elem_of_dom.
Qed.

(** A tier that ends its loop has been looked up. *)
Lemma sell_loop_Ok_entry fuel prices day pt price env pt' env' :
  sell_loop fuel prices day pt price env = (Ok pt', env') →
  ∃ row, env_demand env !! day = Some row ∧ is_Some (row !! price).
Proof.
  destruct fuel; cbn [sell_loop]; rewrite bind_run; unfold get_demand at 1;
    (destruct (env_demand env !! day) as [row|]; [|done]);
    (destruct (row !! price) as [d|] eqn:Hd; [|done]); eauto.
Qed.

Lemma tiers_Ok_entries fuel prices day tiers :
  ∀ pt env pt' env',
    for_in (sell_loop fuel prices day) tiers pt env = (Ok pt', env') →
    ∀ price, price ∈ tiers →
      ∃ row, env_demand env !! day = Some row ∧ is_Some (row !! price).
Proof.
  induction tiers as [|tier tiers IH]; intros pt env pt' env' Hrun price Hin.
  { by apply elem_of_nil in Hin. }
  cbn [for_in] in Hrun. rewrite bind_run in Hrun.
  pose proof (sell_loop_inv (consumes env) ltac:(intros; by eapply consumes_seat)
                ltac:(intros; by eapply consumes_demand)
                fuel prices day pt tier env (consumes_refl env)) as Hcons.
  destruct (sell_loop fuel prices day pt tier env) as [[pt1| |] env1] eqn:Htier;
    [|done..].
  apply elem_of_cons in Hin as [->|Hin].
  - by eapply sell_loop_Ok_entry.
  - eapply consumes_entry; [exact Hcons|]. by eapply IH.
Qed.

Lemma days_Ok_entries fuel prices days :
  ∀ forecast env forecast' env',
    for_in (day_step fuel prices) days forecast env = (Ok forecast', env') →
    ∀ day price, day ∈ days → price ∈ prices →
      ∃ row, env_demand env !! day = Some row ∧ is_Some (row !! price).
Proof.
  induction days as [|day0 days IH];
    intros forecast env forecast' env' Hrun day price Hday Hprice.
  { by apply elem_of_nil in Hday. }
  cbn [for_in] in Hrun. rewrite bind_run in Hrun.
  pose proof (day_step_inv (consumes env) ltac:(intros; by eapply consumes_seat)
                ltac:(intros; by eapply consumes_demand)
                fuel prices forecast day0 env (consumes_refl env)) as Hcons.
  destruct (day_step fuel prices forecast day0 env) as [[forecast1| |] env1]
    eqn:Hstep; [|done..].
  apply elem_of_cons in Hday as [->|Hday].
  - unfold day_step in Hstep. rewrite bind_run in Hstep.
    destruct (lift (last_item forecast) env) as [[previous| |] env0] eqn:Hlast;
      [|done..].
    unfold lift in Hlast. injection Hlast as _ <-.
    rewrite bind_run in Hstep.
    destruct (for_in (sell_loop fuel prices day0) prices _ env)
      as [[pt| |] env2] eqn:Htiers; [|done..].
    by eapply tiers_Ok_entries.
  - eapply consumes_entry; [exact Hcons|]. by eapply IH.
Qed.

(** What a returned forecast says of the call. *)
Lemma forecast_from_returns fuel history env pts env' :
  forecast_from fuel history env = (Ok (RetForecast pts), env') →
  rows_complete (env_pricing env) (env_demand env)
  ∧ up_to_date history (env_demand env).
Proof.
  rewrite forecast_from_cases.
  pose proof (head_sorted_keys (env_demand env)) as Hhead.
  pose proof (sorted_keys_elem (env_demand env)) as Hdays.
  pose proof (sorted_keys_elem (env_pricing env)) as Hprices.
  destruct (sorted_keys (env_demand env)) as [|first days] eqn:Hkeys; [done|].
  cbn zeta. case_decide as Hstale; [done|].
  destruct (for_in _ _ _ env) as [[forecast| |] env1] eqn:Hrun; [|done..].
  intros _. split.
  - intros day row price Hrow Hprice.
    destruct (days_Ok_entries _ _ _ _ _ _ _ Hrun day price)
      as (row' & Hrow' & Hsome).
    + apply Hdays. by rewrite Hrow.
    + by apply Hprices.
    + by simplify_eq.
  - exists first. split; [by apply Hhead|].
    intros old Hold. rewrite Hold in Hstale. lia.
Qed.

(** The run of [forecast_from], for every fuel from a bound on. *)
Lemma forecast_from_run history pricing demand_matrix :
  rows_complete pricing demand_matrix →
  up_to_date history demand_matrix →
  ∃ pts env' n,
    forecast_sales (sorted_keys pricing) (sorted_keys demand_matrix)
      (carried history, mkEnv pricing demand_matrix) pts env'
    ∧ pt_day <$> pts = sorted_keys demand_matrix
    ∧ ∀ fuel, (n ≤ fuel)%nat →
        forecast_from fuel history (mkEnv pricing demand_matrix)
        = (Ok (RetForecast pts), env').
Proof.
  intros Hrows (first & Hfirst & Hfresh).
  destruct (seats_bounded pricing) as [bound Hbound].
  set (seed := match last history with
               | Some old => old
               | None => mkPoint (first - 1) 0 0
               end).
  assert (carried history = (pt_count seed, pt_revenue seed)) as Hcarried.
  { unfold carried, seed. by destruct (last history). }
  assert (NoDup (sorted_keys pricing)) as Hnodup
    by apply StronglySorted_lt_NoDup, sorted_keys_sorted.
  destruct (days_run (sorted_keys pricing) (sorted_keys demand_matrix)
              (Z.to_nat bound) (sorted_keys demand_matrix) Hnodup
              (λ d Hd, Hd) [seed] seed (mkEnv pricing demand_matrix) eq_refl
              (ready_start pricing demand_matrix _ bound Hrows Hbound
                 (le_n _))) as (pts & env' & Hrun & Hsales & Hdays).
  exists pts, env', (Z.to_nat bound). rewrite Hcarried.
  split; [done|]. split; [done|]. intros fuel Hfuel.
  apply (forecast_from_more_fuel (Z.to_nat bound)); [done| |done].
  rewrite forecast_from_cases. cbn [env_demand env_pricing].
  apply head_sorted_keys in Hfirst.
  destruct (sorted_keys demand_matrix) as [|first' ds] eqn:Hkeys; [done|].
  cbn in Hfirst. injection Hfirst as ->. cbn zeta. fold seed.
  rewrite decide_False.
  - by rewrite Hrun.
  - unfold seed. destruct (last history) as [old|] eqn:Hlast; cbn; [|lia].
    specialize (Hfresh old eq_refl). lia.
Qed.

Lemma forecast_from_sales fuel history pricing demand_matrix pts env' :
  forecast_from fuel history (mkEnv pricing demand_matrix)
  = (Ok (RetForecast pts), env') →
  forecast_sales (sorted_keys pricing) (sorted_keys demand_matrix)
    (carried history, mkEnv pricing demand_matrix) pts env'
  ∧ pt_day <$> pts = sorted_keys demand_matrix.
Proof.
  intros Hrun.
  destruct (forecast_from_returns _ _ _ _ _ Hrun) as [Hrows Hfresh].
  destruct (forecast_from_run history pricing demand_matrix Hrows Hfresh)
    as (pts0 & env0 & n & Hsales & Hdays & Hbound).
  specialize (Hbound (max fuel n) ltac:(lia)).
  rewrite (forecast_from_more_fuel fuel (max fuel n) _ _ _ _ ltac:(lia) Hrun)
    in Hbound by done.
  by simplify_eq.
Qed.

(** Whenever [OD.forecast] returns a forecast, every row of the demand
    matrix has an entry for every price of [pricing], the demand matrix is
    not empty and does not start before the last day of the history, and
    the forecast and the dictionaries after the call are those of the
    simulation of the sales. *)
Lemma forecast_returns_simulation {Station : Type} fuel (od : OD Station)
    pricing demand_matrix pts env' :
  forecast fuel od pricing demand_matrix = (Ok (RetForecast pts), env') →
  rows_complete pricing demand_matrix
  ∧ up_to_date (history od) demand_matrix
  ∧ ∃ days prices,
      ascending_keys demand_matrix days ∧ ascending_keys pricing prices
      ∧ forecast_sales prices days
          (carried (history od), mkEnv pricing demand_matrix) pts env'
      ∧ pt_day <$> pts = days.
Proof.
  unfold forecast. intros Hrun.
  destruct (forecast_from_returns _ _ _ _ _ Hrun) as [Hrows Hfresh].
  destruct (forecast_from_sales _ _ _ _ _ _ Hrun) as [Hsales Hdays].
  split; [done|]. split; [done|].
  exists (sorted_keys demand_matrix), (sorted_keys pricing).
  split; [apply sorted_keys_ascending|].
  split; [apply sorted_keys_ascending|done].
Qed.

(** ** [OD.forecast]: cumulative values and seats *)

Lemma map_fold_sum_alter (g : Z → Z → Z) (h : Z → Z) (m : gmap Z Z) k n :
  m !! k = Some n →
  map_fold (λ k v total, g k v + total) 0 (alter h k m)
  = map_fold (λ k v total, g k v + total) 0 m - g k n + g k (h n).
Proof.
  intros Hk. rewrite (alter_Some_insert h m k n Hk), <- insert_delete_eq.
  rewrite map_fold_insert_L; [|intros; lia|apply lookup_delete_eq].
  rewrite (map_fold_delete_L _ 0 k n m); [lia|intros; lia|done].
Qed.

Lemma sale_seats day price env n :
  env_pricing env !! price = Some n →
  seats_total (env_pricing (sale day price env))
  = seats_total (env_pricing env) - 1
  ∧ seats_value (env_pricing (sale day price env))
    = seats_value (env_pricing env) - price.
Proof.
  intros Hn. unfold seats_total, seats_value, sale. cbn [env_pricing]. split.
  - rewrite (map_fold_sum_alter (λ _ v, v) _ _ price n Hn). lia.
  - rewrite (map_fold_sum_alter (λ k v, k * v) _ _ price n Hn). lia.
Qed.

Lemma tier_sales_account day price state final :
  tier_sales day price state final →
  pt_count final.1 - pt_count state.1
  = seats_total (env_pricing state.2) - seats_total (env_pricing final.2)
  ∧ pt_revenue final.1 - pt_revenue state.1
    = seats_value (env_pricing state.2) - seats_value (env_pricing final.2)
  ∧ pt_count state.1 ≤ pt_count final.1
  ∧ (0 ≤ price → pt_revenue state.1 ≤ pt_revenue final.1).
Proof.
  induction 1 as [pt env Hstop|pt env final Hd Hs Hrest IH]; cbn [fst snd] in *.
  - lia.
  - unfold seats in Hs.
    destruct (env_pricing env !! price) as [n|] eqn:Hn; [|cbn in Hs; lia].
    destruct (sale_seats day price env n Hn) as [Ht Hv].
    rewrite Ht, Hv in IH. cbn [pt_count pt_revenue] in IH. lia.
Qed.

Lemma day_sales_account day tiers state final :
  day_sales day tiers state final →
  pt_count final.1 - pt_count state.1
  = seats_total (env_pricing state.2) - seats_total (env_pricing final.2)
  ∧ pt_revenue final.1 - pt_revenue state.1
    = seats_value (env_pricing state.2) - seats_value (env_pricing final.2)
  ∧ pt_count state.1 ≤ pt_count final.1
  ∧ ((∀ price, price ∈ tiers → 0 ≤ price) →
     pt_revenue state.1 ≤ pt_revenue final.1).
Proof.
  induction 1 as [|price tiers s1 s2 s3 Htier Hrest IH]; [lia|].
  destruct (tier_sales_account _ _ _ _ Htier) as (Hc & Hr & Hcm & Hrm).
  destruct IH as (Hc' & Hr' & Hcm' & Hrm').
  split; [lia|]. split; [lia|]. split; [lia|].
  intros Hpos. specialize (Hrm (Hpos price (list_elem_of_here _ _))).
  specialize (Hrm' (λ p Hp, Hpos p (list_elem_of_further _ _ _ Hp))). lia.
Qed.

Lemma forecast_sales_account prices days count revenue env pts env' :
  forecast_sales prices days (count, revenue, env) pts env' →
  (pts = [] → env' = env)
  ∧ (∀ pt, last pts = Some pt →
       pt_count pt - count
       = seats_total (env_pricing env) - seats_total (env_pricing env')
       ∧ pt_revenue pt - revenue
         = seats_value (env_pricing env) - seats_value (env_pricing env'))
  ∧ StronglySorted Z.le (count :: (pt_count <$> pts))
  ∧ ((∀ price, price ∈ prices → 0 ≤ price) →
     StronglySorted Z.le (revenue :: (pt_revenue <$> pts))).
Proof.
  remember (count, revenue, env) as start eqn:Hstart.
  intros Hsales. revert count revenue env Hstart.
  induction Hsales
    as [c r e|day days c r e pt env1 pts env2 Hday Hrest IH];
    intros count revenue env [= -> -> ->].
  - split; [done|]. split; [done|]. split; repeat constructor.
  - destruct (day_sales_account _ _ _ _ Hday) as (Hc & Hr & Hcm & Hrm).
    cbn [fst snd pt_count pt_revenue] in *.
    destruct (IH _ _ _ eq_refl) as (Hnil & Hlast & Hcs & Hrs).
    split; [done|]. split; [|split].
    + intros pt'. destruct pts as [|pt2 pts].
      * intros [= <-]. by rewrite (Hnil eq_refl).
      * rewrite last_cons_cons. intros Hl.
        destruct (Hlast pt' Hl) as [Hc' Hr']. lia.
    + cbn [fmap list_fmap]. constructor; [done|].
      apply StronglySorted_cons in Hcs as [Hall _].
      constructor; [lia|]. eapply Forall_impl; [exact Hall|]. cbn. lia.
    + intros Hpos. specialize (Hrm Hpos). specialize (Hrs Hpos).
      cbn [fmap list_fmap]. constructor; [done|].
      apply StronglySorted_cons in Hrs as [Hall _].
      constructor; [lia|]. eapply Forall_impl; [exact Hall|]. cbn. lia.
Qed.

(** In a forecast that [OD.forecast] returns, the days are strictly
    ascending and none is before the last day of the history; the
    cumulative counts never decrease, from the count of the last point of
    the history on; the cumulative revenues never decrease when no price of
    [pricing] is negative. *)
Lemma forecast_cumulative {Station : Type} fuel (od : OD Station)
    pricing demand_matrix pts env' :
  forecast fuel od pricing demand_matrix = (Ok (RetForecast pts), env') →
  StronglySorted Z.lt (pt_day <$> pts)
  ∧ (∀ old pt, last (history od) = Some old → pt ∈ pts →
               pt_day old ≤ pt_day pt)
  ∧ StronglySorted Z.le ((carried (history od)).1 :: (pt_count <$> pts))
  ∧ ((∀ price, is_Some (pricing !! price) → 0 ≤ price) →
     StronglySorted Z.le ((carried (history od)).2 :: (pt_revenue <$> pts))).
Proof.
  unfold forecast. intros Hrun.
  destruct (forecast_from_returns _ _ _ _ _ Hrun)
    as [_ (first & [_ Hfirst] & Hfresh)].
  destruct (forecast_from_sales _ _ _ _ _ _ Hrun) as [Hsales Hdays].
  destruct (carried (history od)) as [count revenue] eqn:Hcarried.
  destruct (forecast_sales_account _ _ _ _ _ _ _ Hsales)
    as (_ & _ & Hcs & Hrs).
  cbn [fst snd env_demand] in *.
  split; [rewrite Hdays; apply sorted_keys_sorted|]. split; [|split; [done|]].
  - intros old pt Hold Hpt. specialize (Hfresh old Hold).
    assert (pt_day pt ∈ sorted_keys demand_matrix) as Hin
      by (rewrite <- Hdays; by apply list_elem_of_fmap_2).
    apply sorted_keys_elem in Hin. specialize (Hfirst _ Hin). lia.
  - intros Hpos. apply Hrs. intros price Hin%sorted_keys_elem. by apply Hpos.
Qed.

(** In a forecast that [OD.forecast] returns, the bookings added to the
    count of the last point of the history are the seats taken out of
    [pricing], and the revenue added is the price of these seats. *)
Lemma forecast_accounts {Station : Type} fuel (od : OD Station)
    pricing demand_matrix pts env' pt :
  forecast fuel od pricing demand_matrix = (Ok (RetForecast pts), env') →
  last pts = Some pt →
  pt_count pt - (carried (history od)).1
  = seats_total pricing - seats_total (env_pricing env')
  ∧ pt_revenue pt - (carried (history od)).2
    = seats_value pricing - seats_value (env_pricing env').
Proof.
  unfold forecast. intros Hrun Hlast.
  destruct (forecast_from_sales _ _ _ _ _ _ Hrun) as [Hsales _].
  destruct (carried (history od)) as [count revenue].
  destruct (forecast_sales_account _ _ _ _ _ _ _ Hsales) as (_ & Hacc & _).
  by apply Hacc.
Qed.

(** ** [OD.forecast]: a second call on the same dictionaries *)

Lemma sale_le day price env :
  (∀ tier, seats (sale day price env) tier ≤ seats env tier)
  ∧ (∀ day' tier, demand (sale day price env) day' tier ≤ demand env day' tier).
Proof.
  unfold seats, demand, sale. cbn [env_pricing env_demand]. split.
  - intros tier. destruct (decide (price = tier)) as [<-|Hne].
    + rewrite lookup_alter_eq. destruct (env_pricing env !! price); cbn; lia.
    + by rewrite lookup_alter_ne.
  - intros day' tier. destruct (decide (day = day')) as [<-|Hne].
    + rewrite lookup_alter_eq.
      destruct (env_demand env !! day) as [row|]; cbn; [|done].
      unfold cascade. rewrite map_lookup_imap.
      destruct (row !! tier) as [d|]; cbn; [|done]. case_decide; lia.
    + by rewrite lookup_alter_ne.
Qed.

Lemma tier_sales_le day price state final :
  tier_sales day price state final →
  (∀ tier, seats final.2 tier ≤ seats state.2 tier)
  ∧ (∀ day' tier, demand final.2 day' tier ≤ demand state.2 day' tier).
Proof.
  induction 1 as [pt env Hstop|pt env final Hd Hs Hrest [IHs IHd]];
    cbn [snd] in *; [done|].
  destruct (sale_le day price env) as [Hs' Hd']. split.
  - intros tier. specialize (IHs tier). specialize (Hs' tier). lia.
  - intros day' tier. specialize (IHd day' tier). specialize (Hd' day' tier).
    lia.
Qed.

Lemma day_sales_le day tiers state final :
  day_sales day tiers state final →
  (∀ tier, seats final.2 tier ≤ seats state.2 tier)
  ∧ (∀ day' tier, demand final.2 day' tier ≤ demand state.2 day' tier).
Proof.
  induction 1 as [|price tiers s1 s2 s3 Htier Hrest [IHs IHd]]; [done|].
  destruct (tier_sales_le _ _ _ _ Htier) as [Hs' Hd']. split.
  - intros tier. specialize (IHs tier). specialize (Hs' tier). lia.
  - intros day' tier. specialize (IHd day' tier). specialize (Hd' day' tier).
    lia.
Qed.

Lemma forecast_sales_le prices days start pts env' :
  forecast_sales prices days start pts env' →
  (∀ tier, seats env' tier ≤ seats start.2 tier)
  ∧ (∀ day' tier, demand env' day' tier ≤ demand start.2 day' tier).
Proof.
  induction 1 as [|day days c r e pt env1 pts env2 Hday Hrest [IHs IHd]];
    cbn [snd] in *; [done|].
  destruct (day_sales_le _ _ _ _ Hday) as [Hs' Hd']. cbn [snd] in *. split.
  - intros tier. specialize (IHs tier). specialize (Hs' tier). lia.
  - intros day' tier. specialize (IHd day' tier). specialize (Hd' day' tier).
    lia.
Qed.

Lemma forecast_sales_ready prices days0 fuel days start pts env' :
  forecast_sales prices days start pts env' →
  ready prices days0 fuel start.2 → ready prices days0 fuel env'.
Proof.
  induction 1 as [|day days c r e pt env1 pts env2 Hday Hrest IH];
    cbn [snd] in *; [done|].
  intros Hready. apply IH.
  by apply (day_sales_ready _ _ _ _ _ _ _ Hday).
Qed.

(** A tier stops with no demand or no seats left. *)
Lemma tier_sales_stops day price state final :
  tier_sales day price state final →
  ¬ (0 < demand final.2 day price ∧ 0 < seats final.2 price).
Proof. induction 1; done. Qed.

Lemma day_sales_sold_out day tiers state final :
  day_sales day tiers state final →
  ∀ price, price ∈ tiers →
    ¬ (0 < demand final.2 day price ∧ 0 < seats final.2 price).
Proof.
  induction 1 as [|tier tiers s1 s2 s3 Htier Hrest IH]; intros price Hin.
  { by apply elem_of_nil in Hin. }
  apply elem_of_cons in Hin as [->|Hin]; [|by apply IH].
  pose proof (tier_sales_stops _ _ _ _ Htier) as Hstop.
  destruct (day_sales_le _ _ _ _ Hrest) as [Hs Hd].
  specialize (Hs tier). specialize (Hd day tier). lia.
Qed.

Lemma forecast_sales_sold_out prices days start pts env' :
  forecast_sales prices days start pts env' → sold_out prices days env'.
Proof.
  induction 1 as [|day days c r e pt env1 pts env2 Hday Hrest IH];
    intros day' price Hin Hprice.
  { by apply elem_of_nil in Hin. }
  apply elem_of_cons in Hin as [->|Hin]; [|by apply IH].
  pose proof (day_sales_sold_out _ _ _ _ Hday price Hprice) as Hstop.
  destruct (forecast_sales_le _ _ _ _ _ Hrest) as [Hs Hd]. cbn [snd] in *.
  specialize (Hs price). specialize (Hd day price). lia.
Qed.

(** When nothing can be sold the loops change nothing, whatever the fuel. *)
Lemma tiers_sold_out fuel prices days n day tiers pt env :
  ready prices days n env → day ∈ days →
  (∀ price, price ∈ tiers → price ∈ prices) →
  (∀ price, price ∈ tiers →
            ¬ (0 < demand env day price ∧ 0 < seats env price)) →
  for_in (sell_loop fuel prices day) tiers pt env = (Ok pt, env).
Proof.
  intros Hready Hday. induction tiers as [|price tiers IH]; intros Hsub Hout;
    [done|].
  cbn [for_in]. rewrite bind_run.
  assert (sell_loop fuel prices day pt price env = (Ok pt, env)) as ->.
  { specialize (Hout price (list_elem_of_here _ _)).
    specialize (Hsub price (list_elem_of_here _ _)).
    destruct fuel; cbn [sell_loop];
      rewrite bind_run, (get_demand_ready prices days n) by done;
      (case_decide; [|done]);
      rewrite bind_run, (get_pricing_ready prices days n) by done;
      (case_decide; [|done]); tauto. }
  apply IH; intros price' Hin; [apply Hsub|apply Hout]; by right.
Qed.

Lemma days_sold_out fuel prices days n ds :
  (∀ day, day ∈ ds → day ∈ days) →
  ∀ forecast previous env,
    last forecast = Some previous →
    ready prices days n env → sold_out prices ds env →
    for_in (day_step fuel prices) ds forecast env
    = (Ok (forecast
           ++ ((λ day, mkPoint day (pt_count previous) (pt_revenue previous))
               <$> ds)), env).
Proof.
  induction ds as [|day ds IH];
    intros Hsub forecast previous env Hlast Hready Hout; cbn [for_in].
  { by rewrite app_nil_r. }
  assert (day_step fuel prices forecast day env
          = (Ok (forecast ++ [mkPoint day (pt_count previous)
                                      (pt_revenue previous)]), env)) as Hstep.
  { unfold day_step. rewrite bind_run.
    unfold lift at 1, last_item. rewrite Hlast. rewrite bind_run.
    rewrite (tiers_sold_out fuel prices days n day prices); [done|done| |done|].
    - apply Hsub. left.
    - intros p Hp. apply Hout; [left|done]. }
  rewrite bind_run, Hstep.
  rewrite (IH (λ d Hd, Hsub d (list_elem_of_further _ _ _ Hd))
             (forecast ++ [mkPoint day (pt_count previous)
                                   (pt_revenue previous)])
             (mkPoint day (pt_count previous) (pt_revenue previous)) env
             (last_snoc _ _) Hready).
  - by rewrite <- (assoc_L (++)).
  - intros d p Hd Hp. apply Hout; [by right|done].
Qed.

Lemma sorted_keys_same_dom {V W} (d1 : gmap Z V) (d2 : gmap Z W) :
  dom d1 = dom d2 → sorted_keys d1 = sorted_keys d2.
Proof.
  intros Hdom. apply ascending_unique; [apply sorted_keys_sorted..|].
  intros k. by rewrite !sorted_keys_elem, <- !elem_of_dom, Hdom.
Qed.

(** [OD.forecast] uses up its dictionaries: after a call that returned a
    forecast, a second call on the same two dictionaries, with the same
    history, changes them no more and returns a forecast in which every
    day has the count and the revenue the history ended with. *)
Lemma forecast_twice {Station : Type} fuel (od : OD Station)
    pricing demand_matrix pts env' fuel' :
  forecast fuel od pricing demand_matrix = (Ok (RetForecast pts), env') →
  forecast fuel' od (env_pricing env') (env_demand env')
  = (Ok (RetForecast
           ((λ pt, mkPoint (pt_day pt) (carried (history od)).1
                           (carried (history od)).2) <$> pts)), env').
Proof.
  unfold forecast. intros Hrun.
  destruct (forecast_from_returns _ _ _ _ _ Hrun)
    as [Hrows (first & Hfirst & Hfresh)].
  destruct (forecast_from_sales _ _ _ _ _ _ Hrun) as [Hsales Hdays].
  pose proof (forecast_from_consumes fuel (history od)
                (mkEnv pricing demand_matrix)) as Hcons.
  rewrite Hrun in Hcons. cbn [snd] in Hcons.
  apply consumes_keys in Hcons as (Hkp & Hkd & _).
  cbn [env_pricing env_demand] in *.
  destruct (seats_bounded pricing) as [bound Hbound].
  pose proof (forecast_sales_ready _ _ _ _ _ _ _ Hsales
                (ready_start pricing demand_matrix _ bound Hrows Hbound
                   (le_n _))) as Hready.
  pose proof (forecast_sales_sold_out _ _ _ _ _ Hsales) as Hout.
  rewrite forecast_from_cases. cbn [env_demand env_pricing].
  rewrite (sorted_keys_same_dom _ _ Hkp), (sorted_keys_same_dom _ _ Hkd).
  apply head_sorted_keys in Hfirst.
  destruct (sorted_keys demand_matrix) as [|first' ds] eqn:Hkeys; [done|].
  cbn in Hfirst. injection Hfirst as ->. cbn zeta.
  set (seed := match last (history od) with
               | Some old => old
               | None => mkPoint (first - 1) 0 0
               end).
  assert (carried (history od) = (pt_count seed, pt_revenue seed)) as ->.
  { unfold carried, seed. by destruct (last (history od)). }
  rewrite decide_False.
  2:{ unfold seed. destruct (last (history od)) as [old|] eqn:Hlast; cbn; [|lia].
      specialize (Hfresh old eq_refl). lia. }
  replace (mkEnv (env_pricing env') (env_demand env')) with env'
    by (by destruct env').
  rewrite (days_sold_out fuel' _ _ _ (first :: ds) (λ d Hd, Hd) [seed] seed env'
             eq_refl Hready Hout).
  cbn [app fst snd]. do 3 f_equal. rewrite <- Hdays.
  by rewrite <- list_fmap_compose.
Qed.

(** ** [OD.forecast]: it ends, and how *)

Lemma for_in_settled {A S} (I : S → Env → Prop) (body : S → A → M S) l :
  (∀ s x env, I s env →
     settled (body s x env).1
     ∧ ∀ s', (body s x env).1 = Ok s' → I s' (body s x env).2) →
  ∀ s env, I s env →
    settled (for_in body l s env).1
    ∧ ∀ s', (for_in body l s env).1 = Ok s' → I s' (for_in body l s env).2.
Proof.
  intros Hbody. induction l as [|x l IH]; intros s env HI; cbn [for_in].
  - cbn. split; [done|]. by intros s' [= <-].
  - rewrite bind_run. destruct (Hbody s x env HI) as [Hs Hnext].
    destruct (body s x env) as [[s1| |] env1]; cbn in *; [|done..].
    by apply IH, Hnext.
Qed.

Lemma cascade_step_settled day price u upper_price env :
  settled (cascade_step day price u upper_price env).1.
Proof.
  unfold cascade_step. case_decide; [|done].
  rewrite bind_run. unfold get_demand at 1.
  destruct (env_demand env !! day) as [row|] eqn:Hrow; [|done].
  destruct (row !! upper_price) as [d|] eqn:Hd; [|done].
  case_decide; [|done]. rewrite bind_run. unfold get_demand, set_demand.
  by rewrite Hrow, Hd, Hrow.
Qed.

Lemma cascade_step_pricing day price u upper_price env :
  env_pricing (cascade_step day price u upper_price env).2 = env_pricing env.
Proof.
  unfold cascade_step. case_decide; [|done].
  rewrite bind_run. unfold get_demand at 1.
  destruct (env_demand env !! day) as [row|] eqn:Hrow; [|done].
  destruct (row !! upper_price) as [d|] eqn:Hd; [|done].
  case_decide; [|done]. rewrite bind_run. unfold get_demand, set_demand.
  by rewrite Hrow, Hd, Hrow.
Qed.

(** A sale ends, and takes one seat of its tier. *)
Lemma sell_ticket_settled prices day price pt env n :
  env_pricing env !! price = Some n →
  settled (sell_ticket prices day price pt env).1
  ∧ env_pricing (sell_ticket prices day price pt env).2
    = <[price := n - 1]> (env_pricing env).
Proof.
  intros Hn. unfold sell_ticket. cbn zeta. rewrite bind_run.
  unfold decr_pricing. rewrite bind_run. unfold get_pricing, set_pricing.
  rewrite Hn. rewrite bind_run.
  set (env0 := mkEnv (<[price := n - 1]> (env_pricing env)) (env_demand env)).
  destruct (for_in_settled (λ _ _, True) (cascade_step day price) prices
              (λ s x e _, conj (cascade_step_settled day price s x e)
                               (λ _ _, I)) tt env0 I) as [Hs _].
  pose proof (for_in_preserves
                (λ e, env_pricing e = <[price := n - 1]> (env_pricing env))
                (cascade_step day price) prices
                (λ s x e He, eq_trans (cascade_step_pricing day price s x e) He)
                tt env0 eq_refl) as Hp.
  destruct (for_in _ _ _ env0) as [[[]| |] env1]; done.
Qed.

(** The [while] loop of a tier ends within as many passes as the tier has
    seats, whatever the dictionaries. *)
Lemma sell_loop_settled n prices day price :
  ∀ pt env, seats env price ≤ Z.of_nat n →
            settled (sell_loop n prices day pt price env).1.
Proof.
  induction n as [|n IH]; intros pt env Hseats; cbn [sell_loop];
    rewrite bind_run; unfold get_demand at 1;
    (destruct (env_demand env !! day) as [row|]; [|done]);
    (destruct (row !! price) as [d|]; [|done]);
    (case_decide; [|done]); rewrite bind_run; unfold get_pricing at 1;
    (destruct (env_pricing env !! price) as [k|] eqn:Hk; [|done]);
    (case_decide; [|done]);
    rewrite (seats_Some env price k Hk) in Hseats; [lia|].
  rewrite bind_run.
  destruct (sell_ticket_settled prices day price pt env k Hk) as [Hs Hp].
  destruct (sell_ticket prices day price pt env) as [[pt'| |] env1];
    cbn in *; [|done..].
  apply IH. unfold seats. rewrite Hp, lookup_insert_eq. cbn. lia.
Qed.

Lemma bounded_inv fuel :
  (∀ env price n,
     (∀ tier, seats env tier ≤ Z.of_nat fuel) →
     env_pricing env !! price = Some n → 0 < n →
     ∀ tier, seats (mkEnv (<[price := n - 1]> (env_pricing env))
                          (env_demand env)) tier ≤ Z.of_nat fuel)
  ∧ (∀ env day row price d,
       (∀ tier, seats env tier ≤ Z.of_nat fuel) →
       env_demand env !! day = Some row → row !! price = Some d → 0 < d →
       ∀ tier, seats (mkEnv (env_pricing env)
                            (<[day := <[price := d - 1]> row]> (env_demand env)))
                     tier ≤ Z.of_nat fuel).
Proof.
  split; [|done]. intros env price n Hb Hn Hpos tier. specialize (Hb tier).
  unfold seats in *. cbn [env_pricing].
  destruct (decide (price = tier)) as [<-|Hne].
  - rewrite lookup_insert_eq. rewrite Hn in Hb. cbn in *. lia.
  - by rewrite lookup_insert_ne.
Qed.

Lemma day_step_last fuel prices forecast previous day env :
  last forecast = Some previous →
  day_step fuel prices forecast day env
  = match for_in (sell_loop fuel prices day) prices
            (mkPoint day (pt_count previous) (pt_revenue previous)) env with
    | (Ok pt, env') => (Ok (forecast ++ [pt]), env')
    | (Raise e, env') => (Raise e, env')
    | (OutOfFuel, env') => (OutOfFuel, env')
    end.
Proof.
  intros Hlast. unfold day_step. rewrite bind_run.
  unfold lift at 1, last_item. rewrite Hlast. rewrite bind_run.
  by destruct (for_in _ _ _ env) as [[pt| |] env'].
Qed.

(** With a demand matrix that is not empty and fuel for the seats of every
    tier, [forecast_from] ends, with a result or on a [KeyError]. *)
Lemma forecast_from_settled fuel history env :
  sorted_keys (env_demand env) ≠ [] →
  (∀ tier, seats env tier ≤ Z.of_nat fuel) →
  settled (forecast_from fuel history env).1.
Proof.
  intros Hdays Hbound. rewrite forecast_from_cases.
  destruct (sorted_keys (env_demand env)) as [|first days]; [done|].
  cbn zeta. case_decide; [done|].
  destruct (bounded_inv fuel) as [Hseat Hdemand].
  set (bounded := λ e : Env, ∀ tier, seats e tier ≤ Z.of_nat fuel).
  assert (∀ prices day tiers pt e, bounded e →
            settled (for_in (sell_loop fuel prices day) tiers pt e).1
            ∧ ∀ pt', (for_in (sell_loop fuel prices day) tiers pt e).1 = Ok pt' →
                     bounded (for_in (sell_loop fuel prices day) tiers pt e).2)
    as Htiers.
  { intros prices day tiers pt e Hb.
    apply (for_in_settled (λ _ e', bounded e')); [|done].
    intros pt1 price e1 Hb1. split; [by apply sell_loop_settled|].
    intros _ _. by apply (sell_loop_inv bounded Hseat Hdemand). }
  assert (∀ prices forecast day e,
            forecast ≠ [] ∧ bounded e →
            settled (day_step fuel prices forecast day e).1
            ∧ ∀ forecast',
                (day_step fuel prices forecast day e).1 = Ok forecast' →
                forecast' ≠ [] ∧ bounded (day_step fuel prices forecast day e).2)
    as Hstep.
  { intros prices forecast day e [Hne Hb].
    destruct (last forecast) as [previous|] eqn:Hlast;
      [|by apply last_None in Hlast].
    rewrite (day_step_last fuel prices forecast previous day e Hlast).
    destruct (Htiers prices day prices
                (mkPoint day (pt_count previous) (pt_revenue previous)) e Hb)
      as [Hs Hnext].
    destruct (for_in _ _ _ e) as [[pt| |] e1]; cbn in *; [|done..].
    split; [done|]. intros forecast' [= <-]. split; [|by eapply Hnext].
    by destruct forecast. }
  match goal with
  | |- context [for_in (day_step fuel ?prices) ?l ?seed env] =>
      destruct (for_in_settled
                  (λ forecast e, forecast ≠ [] ∧ bounded e)
                  (day_step fuel prices) l (Hstep prices) seed env)
        as [Hs Hnext]; [done|];
      destruct (for_in (day_step fuel prices) l seed env)
        as [[[|pt forecast]| |] env1]
  end; cbn in *; try done.
  by destruct (Hnext [] eq_refl) as [? _].
Qed.

(** [OD.forecast] always ends when the fuel is at least the seat count of
    every tier: with a demand matrix that is not empty it returns the error
    message or a forecast, or fails on a [KeyError]. *)
Lemma forecast_settles {Station : Type} fuel (od : OD Station)
    pricing demand_matrix first :
  earliest demand_matrix first →
  (∀ price n, pricing !! price = Some n → n ≤ Z.of_nat fuel) →
  settled (forecast fuel od pricing demand_matrix).1.
Proof.
  intros Hfirst%head_sorted_keys Hbound. apply forecast_from_settled.
  - cbn [env_demand]. by destruct (sorted_keys demand_matrix).
  - intros tier. unfold seats. cbn [env_pricing].
    destruct (pricing !! tier) as [n|] eqn:Hn; cbn; [by eapply Hbound|lia].
Qed.

(** A missing key: when the demand matrix is up to date and some row has
    no entry for some price of [pricing], [OD.forecast] fails with
    [KeyError]. *)
Lemma forecast_missing_key {Station : Type} fuel (od : OD Station)
    pricing demand_matrix :
  up_to_date (history od) demand_matrix →
  ¬ rows_complete pricing demand_matrix →
  (∀ price n, pricing !! price = Some n → n ≤ Z.of_nat fuel) →
  (forecast fuel od pricing demand_matrix).1 = Raise KeyError.
Proof.
  intros (first & Hfirst & Hfresh) Hmissing Hbound.
  assert (settled (forecast fuel od pricing demand_matrix).1) as Hsettled.
  { apply forecast_from_settled.
    - cbn [env_demand]. apply head_sorted_keys in Hfirst.
      by destruct (sorted_keys demand_matrix).
    - intros tier. unfold seats. cbn [env_pricing].
      destruct (pricing !! tier) as [n|] eqn:Hn; cbn; [by eapply Hbound|lia]. }
  destruct (forecast fuel od pricing demand_matrix) as [o env'] eqn:Hrun.
  cbn [fst] in *. destruct o as [[msg|pts]|e|]; cbn in Hsettled;
    [| |by subst|done].
  - pose proof (forecast_stale_cases fuel od pricing demand_matrix) as Hstale.
    rewrite Hrun in Hstale. cbn [fst] in Hstale.
    destruct Hstale as (first' & old & [Hsome _] & Hlast & Hlt); [by eexists|].
    specialize (Hfresh old Hlast).
    pose proof (proj2 Hfirst first' Hsome). lia.
  - unfold forecast in Hrun.
    by destruct (forecast_from_returns _ _ _ _ _ Hrun) as [Hrows _].
Qed.

(** ** [Service.itinerary]: legs in any order, and what it returns *)

Section Unordered.
Context {Station : Type} `{EqDecision Station}.
Implicit Types (stops rest ext : list Station) (x a b : Station).
Implicit Types (leg : Leg Station) (ls : list (Leg Station)).

Lemma elem_of_consecutive_legs stops leg :
  leg ∈ consecutive_legs stops ↔
  ∃ l1 l2, stops = l1 ++ leg_origin leg :: leg_destination leg :: l2.
Proof.
  split.
  - induction stops as [|o [|d rest] IH]; [by intros ?%elem_of_nil..|].
    rewrite consecutive_legs_cons.
    intros [->|Hin]%elem_of_cons; [by exists [], rest|].
    destruct (IH Hin) as (l1 & l2 & Heq). exists (o :: l1), l2.
    cbn. by rewrite Heq.
  - intros (l1 & l2 & ->). rewrite consecutive_legs_app, elem_of_app. right.
    rewrite consecutive_legs_cons. destruct leg. left.
Qed.

Lemma NoDup_split_unique (l1 l2 r1 r2 : list Station) x :
  NoDup (l1 ++ x :: r1) → l1 ++ x :: r1 = l2 ++ x :: r2 →
  l1 = l2 ∧ r1 = r2.
Proof.
  revert l2. induction l1 as [|a l1 IH]; intros [|b l2] Hnd Heq;
    cbn in *; simplify_eq.
  - done.
  - apply NoDup_cons in Hnd as [Hx _]. destruct Hx.
    rewrite elem_of_app. right. left.
  - apply NoDup_cons in Hnd as [Hx _]. destruct Hx.
    rewrite elem_of_app. right. left.
  - apply NoDup_cons in Hnd as [_ Hnd].
    by destruct (IH l2 Hnd ltac:(done)) as [-> ->].
Qed.

(** Over legs of the stop sequence a pass keeps the itinerary a prefix of
    the stops, and makes it longer when the leg that leaves its last stop
    is among them. *)
Lemma itinerary_pass_prefix stops ls :
  NoDup stops →
  (∀ leg, leg ∈ ls → leg ∈ consecutive_legs stops) →
  ∀ before x rest,
    stops = before ++ x :: rest →
    ∃ ext rest',
      for_each itinerary_step ls (before ++ [x]) = Ok (before ++ x :: ext)
      ∧ rest = ext ++ rest'
      ∧ (∀ b, mkLeg x b ∈ ls → ext ≠ []).
Proof.
  intros Hnd. induction ls as [|leg ls IH]; intros Hsub before x rest Hstops.
  { exists [], rest. split; [done|]. split; [done|].
    by intros b ?%elem_of_nil. }
  rewrite for_each_cons. unfold itinerary_step at 1. rewrite last_snoc.
  assert (∀ leg', leg' ∈ ls → leg' ∈ consecutive_legs stops) as Hsub'
    by (intros leg' Hin; apply Hsub; by right).
  destruct (decide (leg_origin leg = x)) as [Heq|Hne].
  - assert (leg ∈ consecutive_legs stops) as Hleg by (apply Hsub; left).
    apply elem_of_consecutive_legs in Hleg as (l1 & l2 & Hsplit).
    rewrite Heq in Hsplit. rewrite Hstops in Hnd, Hsplit.
    destruct (NoDup_split_unique _ _ _ _ _ Hnd Hsplit) as [<- ->].
    destruct (IH Hsub' (before ++ [x]) (leg_destination leg) l2)
      as (ext & rest' & Hrun & Hrest & _).
    { by rewrite Hstops, <- (assoc_L (++)). }
    exists (leg_destination leg :: ext), rest'.
    rewrite Hrun, <- (assoc_L (++)). split; [done|]. split; [|done].
    by rewrite Hrest.
  - destruct (IH Hsub' before x rest Hstops)
      as (ext & rest' & Hrun & Hrest & Hgrow).
    exists ext, rest'. split; [done|]. split; [done|].
    intros b [Hleg|Hin]%elem_of_cons; [|by eapply Hgrow].
    destruct Hne. by rewrite <- Hleg.
Qed.

Lemma itinerary_loop_prefix stops ls :
  NoDup stops → ls ≡ₚ consecutive_legs stops →
  ∀ fuel before x rest,
    stops = before ++ x :: rest → (length rest ≤ fuel)%nat →
    itinerary_loop fuel ls (before ++ [x]) = Ok stops.
Proof.
  intros Hnd Hperm.
  assert (∀ station, station ∈ origins ls ↔
                     station ∈ origins (consecutive_legs stops)) as Horigins.
  { intros station. unfold origins. by rewrite Hperm. }
  induction fuel as [fuel IH] using lt_wf_ind.
  intros before x rest Hstops Hlen.
  destruct rest as [|b rest].
  - assert (x ∉ origins ls) as Hnot.
    { rewrite Horigins. apply last_not_origin; [done|].
      rewrite Hstops. apply last_snoc. }
    destruct fuel; cbn [itinerary_loop]; rewrite last_snoc;
      by rewrite decide_False, Hstops.
  - assert (mkLeg x b ∈ ls) as Hleg.
    { rewrite Hperm. apply elem_of_consecutive_legs. by exists before, rest. }
    destruct fuel as [|fuel]; [cbn in Hlen; lia|].
    cbn [itinerary_loop]. rewrite last_snoc.
    rewrite decide_True by (by apply (list_elem_of_fmap_2 leg_origin) in Hleg).
    destruct (itinerary_pass_prefix stops ls Hnd) with (before := before)
      (x := x) (rest := b :: rest) as (ext & rest' & Hrun & Hrest & Hgrow);
      [by intros leg; rewrite Hperm|done|].
    rewrite Hrun. specialize (Hgrow b Hleg).
    destruct (last (x :: ext)) as [y|] eqn:Hlast;
      [|by apply last_None in Hlast].
    apply last_Some in Hlast as [front Hfront].
    rewrite Hfront, (assoc_L (++)).
    apply (IH fuel ltac:(lia) (before ++ front) y rest').
    + by rewrite Hstops, Hrest, <- (assoc_L (++)), (snoc_app front),
        <- Hfront.
    + rewrite Hrest, length_app in Hlen. destruct ext; [done|].
      cbn [length] in Hlen. lia.
Qed.

(** [Service.itinerary] puts the legs of a stop sequence back in order
    whatever the order they are stored in: with the legs of pairwise
    distinct stops in any order, and as many passes as there are legs, it
    returns the stop sequence. *)
Lemma itinerary_unordered stops ls fuel :
  NoDup stops → (2 ≤ length stops)%nat →
  ls ≡ₚ consecutive_legs stops → (length ls ≤ fuel)%nat →
  itinerary_of_legs fuel ls = Ok stops.
Proof.
  intros Hnd Hlen Hperm Hfuel. unfold itinerary_of_legs.
  destruct stops as [|o [|d rest]]; [cbn in Hlen; lia..|].
  assert (service_origins ls = [o]) as ->.
  { apply Permutation_singleton_r.
    rewrite <- (service_origins_consecutive o d rest Hnd).
    unfold service_origins.
    rewrite (list_filter_iff _ (λ station,
               station ∉ destinations (consecutive_legs (o :: d :: rest)))).
    - unfold origins. by rewrite Hperm.
    - intros station. unfold destinations. by rewrite Hperm. }
  apply (itinerary_loop_prefix (o :: d :: rest) ls Hnd Hperm fuel [] o
           (d :: rest)); [done|].
  rewrite Hperm, length_consecutive_legs in Hfuel. cbn [length] in *. lia.
Qed.

Lemma itinerary_pass_extends ls :
  ∀ stops stops', for_each itinerary_step ls stops = Ok stops' →
                  ∃ ext, stops' = stops ++ ext.
Proof.
  induction ls as [|leg ls IH]; intros stops stops'.
  { intros [= <-]. exists []. by rewrite app_nil_r. }
  rewrite for_each_cons. unfold itinerary_step at 1.
  destruct (last stops) as [x|]; [|done].
  case_decide.
  - intros (ext & ->)%IH. exists (leg_destination leg :: ext).
    by rewrite <- (assoc_L (++)).
  - apply IH.
Qed.

Lemma itinerary_loop_Ok fuel ls :
  ∀ stops stops',
    itinerary_loop fuel ls stops = Ok stops' →
    (∃ ext, stops' = stops ++ ext)
    ∧ ∃ x, last stops' = Some x ∧ x ∉ origins ls.
Proof.
  induction fuel as [|fuel IH]; intros stops stops'; cbn [itinerary_loop];
    (destruct (last stops) as [x|] eqn:Hlast; [|done]);
    (case_decide as Hin; [|intros [= <-]; split;
                           [exists []; by rewrite app_nil_r|by exists x]]);
    [done|].
  destruct (for_each itinerary_step ls stops) as [stops1| |] eqn:Hpass;
    [|done..].
  apply itinerary_pass_extends in Hpass as [ext1 ->].
  intros [[ext ->] Hend]%IH. split; [|done].
  exists (ext1 ++ ext). by rewrite (assoc_L (++)).
Qed.

(** An itinerary that [Service.itinerary] returns starts at a stop that a
    leg leaves and no leg arrives at, and ends at a stop that no leg
    leaves. *)
Lemma itinerary_ends fuel (svc : Service Station) stops :
  itinerary fuel svc = Ok stops →
  (∃ first, head stops = Some first
            ∧ first ∈ origins (legs svc) ∧ first ∉ destinations (legs svc))
  ∧ (∃ x, last stops = Some x ∧ x ∉ origins (legs svc)).
Proof.
  unfold itinerary, itinerary_of_legs.
  destruct (service_origins (legs svc)) as [|first sources] eqn:Hsources;
    [by destruct fuel|].
  intros [[ext ->] Hend]%itinerary_loop_Ok. split; [|done].
  exists first. split; [done|].
  assert (first ∈ service_origins (legs svc)) as Hin by (rewrite Hsources; left).
  unfold service_origins in Hin. by apply list_elem_of_filter in Hin as [? ?].
Qed.

End Unordered.

(** ** The properties on the data set of the program *)

Lemma load_passenger_manifest_ods_witness :
  ods (load_passenger_manifest service_7601 manifest) !! 1%nat
  = Some (mkOD ply msc [mkPassenger ply msc (-10) 50]).
Proof.
  destruct (load_passenger_manifest_ods service_7601 manifest 1)
    as (_ & _ & _ & _ & Hod).
  apply (Hod (mkOD ply msc [])). reflexivity.
Defined.

Lemma load_passenger_manifest_drop_witness :
  load_passenger_manifest service_7601 (manifest ++ passenger_back :: [])
  = load_passenger_manifest service_7601 (manifest ++ []).
Proof.
  apply (load_passenger_manifest_drop service_7601 manifest passenger_back []).
  apply (proj1 (Forall_forall _ _)).
  apply (bool_decide_unpack _). vm_compute. reflexivity.
Defined.

Lemma od_legs_loaded_witness :
  od_legs 1 service_abcd (mkOD "A" "D" [])%string
  = Ok [mkLeg "A" "B"; mkLeg "B" "C"; mkLeg "C" "D"]%string
  ∧ od_legs 1 service_abcd (mkOD "A" "C" [])%string = OutOfFuel.
Proof.
  split.
  - apply (od_legs_loaded (mkService "abcd" (mkDate 739931) [] []) []
             "A" ["B"; "C"] "D" [] [] 0)%string.
    apply (bool_decide_unpack _). vm_compute. reflexivity.
  - apply (od_legs_loaded (mkService "abcd" (mkDate 739931) [] []) []
             "A" ["B"] "C" ["D"] [] 0)%string.
    apply (bool_decide_unpack _). vm_compute. reflexivity.
Defined.

Lemma leg_passengers_diverges_witness :
  leg_passengers 5 (load_passenger_manifest service_abcd [])
    (mkLeg "A" "B")%string
  = OutOfFuel.
Proof.
  apply (leg_passengers_diverges (mkService "abcd" (mkDate 739931) [] [])
           "A" "B" "C" "D" [] [] 5 (mkLeg "A" "B"))%string.
  apply (bool_decide_unpack _). vm_compute. reflexivity.
Defined.

Lemma leg_passengers_three_witness :
  leg_passengers 1 (load_passenger_manifest service_7601 manifest)
    (mkLeg ply lpd)
  = Ok manifest
  ∧ leg_passengers 1 (load_passenger_manifest service_7601 manifest)
      (mkLeg lpd msc)
    = Ok [mkPassenger ply msc (-10) 50].
Proof.
  assert (NoDup [ply; lpd; msc]) as Hnd
    by (apply (bool_decide_unpack _); vm_compute; reflexivity).
  exact (leg_passengers_three (mkService "7601" (mkDate 739931) [] [])
           ply lpd msc manifest 0 Hnd).
Defined.



Lemma forecast_returns_simulation_witness :
  ∃ pts env',
    forecast 3 od_ply_lpd pricing_7601 demand_matrix_7601
    = (Ok (RetForecast pts), env')
    ∧ rows_complete pricing_7601 demand_matrix_7601
    ∧ up_to_date (history od_ply_lpd) demand_matrix_7601
    ∧ ∃ days prices,
        ascending_keys demand_matrix_7601 days
        ∧ ascending_keys pricing_7601 prices
        ∧ forecast_sales prices days
            (carried (history od_ply_lpd),
             mkEnv pricing_7601 demand_matrix_7601) pts env'
        ∧ pt_day <$> pts = days.
Proof.
  eexists _, _. split; [vm_compute; reflexivity|].
  eapply (forecast_returns_simulation 3 od_ply_lpd pricing_7601
            demand_matrix_7601).
  vm_compute. reflexivity.
Defined.

Lemma forecast_cumulative_witness :
  ∃ pts env',
    forecast 3 od_ply_lpd pricing_7601 demand_matrix_7601
    = (Ok (RetForecast pts), env')
    ∧ StronglySorted Z.lt (pt_day <$> pts)
    ∧ StronglySorted Z.le (4 :: (pt_count <$> pts))
    ∧ StronglySorted Z.le (130 :: (pt_revenue <$> pts)).
Proof.
  eexists _, _. split; [vm_compute; reflexivity|].
  edestruct (forecast_cumulative 3 od_ply_lpd pricing_7601
               demand_matrix_7601) as (Hdays & _ & Hcounts & Hrevenues);
    [vm_compute; reflexivity|].
  split; [exact Hdays|]. split; [exact Hcounts|]. apply Hrevenues.
  intros price [n Hn]. revert price n Hn.
  change (map_Forall (λ price (_ : Z), 0 ≤ price) pricing_7601).
  apply (bool_decide_unpack _). vm_compute. reflexivity.
Defined.

Lemma forecast_accounts_witness :
  ∃ pts env' pt,
    forecast 3 od_ply_lpd pricing_7601 demand_matrix_7601
    = (Ok (RetForecast pts), env')
    ∧ last pts = Some pt
    ∧ pt_count pt - 4 = 17 - seats_total (env_pricing env')
    ∧ pt_revenue pt - 130 = 640 - seats_value (env_pricing env').
Proof.
  eexists _, _, _. split; [vm_compute; reflexivity|].
  split; [reflexivity|].
  eapply (forecast_accounts 3 od_ply_lpd pricing_7601 demand_matrix_7601);
    [vm_compute; reflexivity|reflexivity].
Defined.

Lemma forecast_twice_witness :
  ∃ pts env',
    forecast 3 od_ply_lpd pricing_7601 demand_matrix_7601
    = (Ok (RetForecast pts), env')
    ∧ forecast 0 od_ply_lpd (env_pricing env') (env_demand env')
      = (Ok (RetForecast ((λ pt, mkPoint (pt_day pt) 4 130) <$> pts)), env').
Proof.
  eexists _, _. split; [vm_compute; reflexivity|].
  eapply (forecast_twice 3 od_ply_lpd pricing_7601 demand_matrix_7601).
  vm_compute. reflexivity.
Defined.

Lemma forecast_settles_witness :
  settled (forecast 5 od_ply_lpd pricing_7601 demand_matrix_7601).1.
Proof.
  apply (forecast_settles 5 od_ply_lpd pricing_7601 demand_matrix_7601 (-7)).
  - apply earliest_7601.
  - change (map_Forall (λ (_ : Z) n, n ≤ Z.of_nat 5) pricing_7601).
    apply (bool_decide_unpack _). vm_compute. reflexivity.
Defined.

Lemma forecast_missing_key_witness :
  (forecast 5 od_ply_lpd pricing_7601 demand_matrix_gap).1 = Raise KeyError.
Proof.
  apply (forecast_missing_key 5 od_ply_lpd pricing_7601 demand_matrix_gap).
  - exists (-1). split.
    + apply earliest_map_Forall; apply (bool_decide_unpack _); vm_compute;
        reflexivity.
    + intros old [= <-]. simpl. lia.
  - intros Hrows.
    destruct (Hrows 0 (list_to_map [(10, 5); (20, 5)]) 30) as [d Hd];
      [reflexivity|by exists 5|].
    vm_compute in Hd. discriminate Hd.
  - change (map_Forall (λ (_ : Z) n, n ≤ Z.of_nat 5) pricing_7601).
    apply (bool_decide_unpack _). vm_compute. reflexivity.
Defined.

Lemma itinerary_unordered_witness :
  itinerary_of_legs 3 legs_shuffled = Ok ["A"; "B"; "C"; "D"]%string.
Proof.
  apply (itinerary_unordered ["A"; "B"; "C"; "D"]%string legs_shuffled 3).
  - apply (bool_decide_unpack _). vm_compute. reflexivity.
  - simpl. lia.
  - unfold legs_shuffled. simpl. apply Permutation_cons_append.
  - simpl. lia.
Defined.

Lemma itinerary_ends_witness :
  (∃ first, head ["A"; "B"; "C"; "D"]%string = Some first
            ∧ first ∈ origins (legs service_abcd)
            ∧ first ∉ destinations (legs service_abcd))
  ∧ (∃ x, last ["A"; "B"; "C"; "D"]%string = Some x
          ∧ x ∉ origins (legs service_abcd)).
Proof.
  apply (itinerary_ends 1 service_abcd ["A"; "B"; "C"; "D"]%string).
  reflexivity.
Defined.
